(** * Laura-Bot ([bot.py]): image selection, post log, size adaptation
      and the posting run, as a shallow embedding.

    Python values are modelled as follows.
    - A [str] is the list of its Unicode code points ([N]); a [bytes]
      value is the list of its bytes (also [N]).
    - The file system is a finite map from paths to contents.  The log
      file is only ever opened in text mode, so its content is kept
      decoded (a list of code points); image files hold bytes.
    - A function of [bot.py] is a computation [M A]: it takes the world,
      and yields either a returned value or a raised exception, the world
      after it and the events (console lines, remote calls) it emitted.
      State survives a raised exception, as it does in Python.
    - PIL, the atproto client, [glob.glob] and the random generator are
      libraries outside the repository: PIL and the client are interfaces
      (classes), globbing and randomness are read off the world. *)

From Stdlib Require Import ZArith NArith List Ascii String Floats Uint63 Lia.
From stdpp Require Import base option list gmap sets.

#[local] Open Scope N_scope.

(** ** Strings *)

Abbreviation str := (list N).

(** An ASCII literal as a [str]. *)
Definition lit (s : string) : str :=
  (λ a, N_of_ascii a) <$> list_ascii_of_string s.

(** [str.isspace] for one code point, as CPython's
    [_PyUnicode_IsWhitespace] lists them. *)
Definition isspace (c : N) : bool :=
  ((0x09 <=? c) && (c <=? 0x0D)) || ((0x1C <=? c) && (c <=? 0x20))
  || (c =? 0x85) || (c =? 0xA0) || (c =? 0x1680)
  || ((0x2000 <=? c) && (c <=? 0x200A))
  || (c =? 0x2028) || (c =? 0x2029) || (c =? 0x202F) || (c =? 0x205F)
  || (c =? 0x3000).

Fixpoint lstrip (s : str) : str :=
  match s with
  | [] => []
  | c :: rest => if isspace c then lstrip rest else s
  end.

Definition rstrip (s : str) : str := reverse (lstrip (reverse s)).

(** [s.strip()] with no argument: whitespace is removed at both ends. *)
Definition strip (s : str) : str := rstrip (lstrip s).

Definition LF : N := 0x0A.
Definition CR : N := 0x0D.

(** Reading in text mode (universal newlines, the default of [open]):
    ["\r\n"] and a lone ["\r"] arrive as ["\n"]. *)
Fixpoint universal_newlines (s : str) : str :=
  match s with
  | [] => []
  | c :: rest =>
      if c =? CR then
        LF :: match rest with
              | c' :: rest' =>
                  if c' =? LF then universal_newlines rest'
                  else universal_newlines rest
              | [] => universal_newlines rest
              end
      else c :: universal_newlines rest
  end.

(** [f.readlines()] on what was read: the lines, each with its
    terminating ["\n"] (the last one may have none). *)
Fixpoint readlines (s : str) : list str :=
  match s with
  | [] => []
  | c :: rest =>
      if c =? LF then [c] :: readlines rest
      else match readlines rest with
           | [] => [[c]]
           | l :: ls => (c :: l) :: ls
           end
  end.

(** ** Exceptions, events and the world *)

Inductive exn :=
  | FileNotFoundError
  | PermissionError
  | UnicodeEncodeError
  | UnidentifiedImageError
  | ValueError
  | OverflowError
  | UnauthorizedError
  | NetworkError
  | BadRequestError.

#[global] Instance exn_eq_dec : EqDecision exn.
Proof. solve_decision. Defined.

(** The post record handed to [create_record]. *)
Record FacetIndex := { byteStart : Z; byteEnd : Z }.

(** ["$type": "app.bsky.richtext.facet#tag"] with its ["tag"]. *)
Inductive FacetFeature := FacetTag (tag : str).

Record Facet := { index : FacetIndex; features : list FacetFeature }.

(** The blob reference the service returns for an upload (atproto's
    [BlobRef]); the program only passes it on. *)
Record Blob := { ref : str; mime_type : str; size : Z }.

(** [models.AppBskyEmbedImages.Image(alt=.., image=..)]. *)
Record EmbedImage := { alt : str; image : Blob }.

Record PostRecord := {
  text : str;
  facets : list Facet;
  embed : list EmbedImage;
  created_at : str
}.

Record CreateRecordData := {
  repo : str;
  collection : str;
  record : PostRecord
}.

(** The console lines of [bot.py], one constructor per [print]. *)
Inductive message :=
  | NoImagesFound
  | AllAlreadyPosted
  | LoggedPostedImage (image_path : str)
  | ErrorLogging (e : exn)
  | Compressing (image_path : str)
  | Resizing (image_path : str)
  | Deleted (file_path : str)
  | NoImagesToPost
  | AlreadyPosted (image_path : str)
  | SuccessfullyPosted (image_path : str)
  | ErrorWhilePosting (e : exn).

(** What a run does that the outside sees: a console line, or a call of
    the client (recorded when it is made, whether it succeeds or not). *)
Inductive event :=
  | Printed (m : message)
  | LoggedIn (username password : option str)
  | UploadedBlob (data : list N)
  | CreatedRecord (d : CreateRecordData).

Record World := {
  files : gmap str (list N);     (* regular files, by path *)
  readonly : gset str;           (* paths that cannot be opened for writing *)
  listing : str → list str;      (* what glob.glob returns for a pattern *)
  entropy : list nat             (* the draws the random generator will make *)
}.

Inductive outcome (A : Type) :=
  | Returned (a : A)
  | Raised (e : exn).
Arguments Returned {A} _.
Arguments Raised {A} _.

Record Result (A : Type) := {
  out : outcome A;
  world : World;
  emitted : list event
}.
Arguments out {A} _.
Arguments world {A} _.
Arguments emitted {A} _.
Arguments Build_Result {A} _ _ _.

(** ** The monad of [bot.py]'s functions *)

Definition M (A : Type) : Type := World → Result A.

#[global] Instance M_ret : MRet M :=
  λ A a w, Build_Result (Returned a) w [].

#[global] Instance M_bind : MBind M :=
  λ A B f m w,
    match m w with
    | Build_Result (Returned a) w1 evs1 =>
        match f a w1 with
        | Build_Result o w2 evs2 => Build_Result o w2 (evs1 ++ evs2)
        end
    | Build_Result (Raised e) w1 evs1 => Build_Result (Raised e) w1 evs1
    end.

Definition raise {A} (e : exn) : M A :=
  λ w, Build_Result (Raised e) w [].

(** [try: body / except Exception as e: handler e]. *)
Definition try_except {A} (body : M A) (handler : exn → M A) : M A :=
  λ w,
    match body w with
    | Build_Result (Returned a) w1 evs1 => Build_Result (Returned a) w1 evs1
    | Build_Result (Raised e) w1 evs1 =>
        match handler e w1 with
        | Build_Result o w2 evs2 => Build_Result o w2 (evs1 ++ evs2)
        end
    end.

(** [try: body / except E: handler], for one exception class [E]. *)
Definition try_except_only {A} (E : exn) (body : M A) (handler : M A) : M A :=
  try_except body (λ e, if decide (e = E) then handler else raise e).

(** [print(..)].  The console is taken to accept any text: the encoding
    of the standard output and its error handler are the environment's,
    not the program's. *)
Definition print (m : message) : M () :=
  λ w, Build_Result (Returned ()) w [Printed m].

Definition emit (ev : event) : M () :=
  λ w, Build_Result (Returned ()) w [ev].

Definition set_files (fs : gmap str (list N)) (w : World) : World :=
  {| files := fs; readonly := readonly w; listing := listing w;
     entropy := entropy w |}.

Definition set_entropy (ds : list nat) (w : World) : World :=
  {| files := files w; readonly := readonly w; listing := listing w;
     entropy := ds |}.

(** [open(path, "r")] / [open(path, "rb")] followed by [read()]. *)
Definition read_file (path : str) : M (list N) :=
  λ w, match files w !! path with
       | Some c => Build_Result (Returned c) w []
       | None => Build_Result (Raised FileNotFoundError) w []
       end.

(** A text that UTF-8, the encoding of the log, can write: no code
    point of it is a surrogate (a path that [glob] returns for a file name
    that is not valid UTF-8 holds lone surrogates). *)
Definition encodable (s : str) : Prop :=
  Forall (λ c, ¬ (0xD800 ≤ c ∧ c ≤ 0xDFFF)) s.

#[global] Instance encodable_dec (s : str) : Decision (encodable s).
Proof. unfold encodable. apply _. Defined.

(** [open(path, "a")] followed by [write(s)] in text mode.  [open]
    creates the file when it is missing; [write] then encodes the text,
    and raises before anything is written when it cannot. *)
Definition append_file (path : str) (s : str) : M () :=
  λ w, if decide (path ∈ readonly w)
       then Build_Result (Raised PermissionError) w []
       else
         let opened := default [] (files w !! path) in
         if decide (encodable s)
         then Build_Result (Returned ())
                (set_files (<[path := opened ++ s]> (files w)) w) []
         else Build_Result (Raised UnicodeEncodeError)
                (set_files (<[path := opened]> (files w)) w) [].

(** Writing a whole file ([open(path, "wb")], as [Image.save] does). *)
Definition write_file (path : str) (s : list N) : M () :=
  λ w, if decide (path ∈ readonly w)
       then Build_Result (Raised PermissionError) w []
       else Build_Result (Returned ()) (set_files (<[path := s]> (files w)) w) [].

(** [os.path.getsize]. *)
Definition getsize (path : str) : M Z :=
  c ← read_file path; mret (Z.of_nat (length c)).

(** [os.path.exists]. *)
Definition path_exists (path : str) : M bool :=
  λ w, Build_Result (Returned (bool_decide (is_Some (files w !! path)))) w [].

(** [os.remove]. *)
Definition remove (path : str) : M () :=
  λ w, match files w !! path with
       | Some _ => Build_Result (Returned ()) (set_files (delete path (files w)) w) []
       | None => Build_Result (Raised FileNotFoundError) w []
       end.

(** [glob.glob(pattern)]. *)
Definition glob (pattern : str) : M (list str) :=
  λ w, Build_Result (Returned (listing w pattern)) w [].

(** The generator's [_randbelow(n)]: some number below [n], here the
    next draw reduced modulo [n]. *)
Definition randbelow (n : nat) : M nat :=
  λ w, match entropy w with
       | [] => Build_Result (Returned 0%nat) w []
       | d :: ds =>
           Build_Result (Returned (d `mod` n)%nat) (set_entropy ds w) []
       end.

(** [x[i], x[j] = x[j], x[i]]. *)
Definition swap (x : list str) (i j : nat) : list str :=
  match x !! i, x !! j with
  | Some a, Some b => <[j := a]> (<[i := b]> x)
  | _, _ => x
  end.

(** [random.shuffle(x)] (CPython):
    [for i in reversed(range(1, len(x))): j = randbelow(i + 1); swap]. *)
Fixpoint shuffle_from (i : nat) (x : list str) : M (list str) :=
  match i with
  | O => mret x
  | S i' => j ← randbelow (S i); shuffle_from i' (swap x i j)
  end.

Definition shuffle (x : list str) : M (list str) :=
  shuffle_from (length x - 1) x.

(** ** The post log *)

Definition LOG_FILE : str := lit "posted_images.log".

(** [is_image_posted(image_path)]. *)
Definition is_image_posted (image_path : str) : M bool :=
  try_except_only FileNotFoundError
    (log ← read_file LOG_FILE;
     let logged_images := readlines (universal_newlines log) in
     let logged_images := strip <$> logged_images in
     mret (bool_decide (image_path ∈ logged_images)))
    (mret false).

(** [log_posted_image(image_path)]. *)
Definition log_posted_image (image_path : str) : M () :=
  try_except
    (append_file LOG_FILE (image_path ++ [LF]);;
     print (LoggedPostedImage image_path))
    (λ e, print (ErrorLogging e)).

(** ** Image selection *)

(** The [for image in images] loop of [get_next_image]: [Some image]
    is its [return image], [None] is falling out of the loop. *)
Fixpoint first_unposted (images : list str) : M (option str) :=
  match images with
  | [] => mret None
  | image :: rest =>
      posted ← is_image_posted image;
      if negb posted then mret (Some image) else first_unposted rest
  end.

(** [get_next_image(directory)]. *)
Definition get_next_image (directory : str) : M (option str) :=
  images ← glob (directory ++ lit "*");
  images ← shuffle images;
  match images with
  | [] => print NoImagesFound;; mret None
  | _ =>
      found ← first_unposted images;
      match found with
      | Some image => mret (Some image)
      | None => print AllAlreadyPosted;; mret None
      end
  end.

(** ** The log as the specification describes it *)

(** A line without its terminator. *)
Definition strip_terminator (line : str) : str :=
  match reverse line with
  | c :: r => if c =? LF then reverse r else line
  | [] => []
  end.

(** [isPosted] in the specification's words: false when the log file
    does not exist; otherwise the whole log is read, the line terminator
    is stripped from each line and membership is tested. *)
Definition isPosted_spec (path : str) (w : World) : bool :=
  match files w !! LOG_FILE with
  | None => false
  | Some log =>
      bool_decide
        (path ∈ strip_terminator <$> readlines (universal_newlines log))
  end.

(** The lines of the log with whitespace stripped at both ends, the
    list [is_image_posted] searches; empty when there is no log. *)
Definition stripped_lines (w : World) : list str :=
  match files w !! LOG_FILE with
  | None => []
  | Some log => strip <$> readlines (universal_newlines log)
  end.

(** The test the selection loop makes on an entry. *)
Definition unposted (w : World) (p : str) : bool :=
  negb (bool_decide (p ∈ stripped_lines w)).

(** A log as the program leaves it: empty, or ending in a newline. *)
Definition terminated (log : str) : Prop := log = [] ∨ last log = Some LF.

(** ** Worlds for running the model *)

(** A writable file system [fs] whose image directory lists [images]. *)
Definition world_of (fs : gmap str (list N)) (images : list str) : World :=
  {| files := fs;
     readonly := ∅;
     listing := λ pattern,
       if decide (pattern = lit "images/*") then images else [];
     entropy := [] |}.

(** A file name that ends in a space. *)
Definition spaced : str := lit "images/a ".

(** The image [spaced] has been posted and logged. *)
Definition w_spaced : World :=
  world_of {[ LOG_FILE := spaced ++ [LF]; spaced := [1; 2; 3] ]} [spaced].

Definition a_png : str := lit "images/a.png".
Definition b_png : str := lit "images/b.png".

(** Two small images, neither posted yet. *)
Definition w_two : World :=
  world_of {[ a_png := [1; 2; 3]; b_png := [4] ]} [a_png; b_png].

Definition big : str := lit "images/big.png".

(** 976,561 bytes, one more than the ceiling; a 500 x 500 toy image. *)
Definition oversized : list N := 5 :: 5 :: replicate (N.to_nat 976559) 0.

(** The only image is [oversized] and nothing is logged. *)
Definition w_big : World := world_of {[ big := oversized ]} [big].

(** Exactly 976,560 bytes. *)
Definition at_ceiling : list N := replicate (N.to_nat 976560) 0.

Definition w_ceiling : World := world_of {[ big := at_ceiling ]} [big].

(** 2,000,000 bytes; a 2000 x 1000 toy image, 1,000,000 bytes once
    compressed. *)
Definition huge : list N := 20 :: 10 :: replicate (N.to_nat 1999998) 0.

Definition w_huge : World := world_of {[ big := huge ]} [big].

(** 976,561 bytes that no codec of the toy kind decodes. *)
Definition garbage : list N := 0 :: 0 :: replicate (N.to_nat 976559) 0.

Definition w_garbage : World := world_of {[ big := garbage ]} [big].

(** A file of zero bytes. *)
Definition w_zero : World := world_of {[ big := [] ]} [big].

(** ** Python numbers used by the size adapter *)

(** [float(z)] for an [int]; exact below [2^53], which file sizes and
    pixel counts are. *)
Definition float_of_int (z : Z) : float := PrimFloat.of_uint63 (Uint63.of_Z z).

(** [a / b] on two [int]s (true division). *)
Definition truediv (a b : Z) : float :=
  PrimFloat.div (float_of_int a) (float_of_int b).

(** The [float] literal [0.9], that is the binary64 number nearest to it. *)
Definition float_0_9 : float := 0x1.ccccccccccccdp-1%float.

(** [int(f)]: truncation toward zero; Python raises on an infinity
    ([OverflowError]) and on a NaN ([ValueError]). *)
Definition int_of_float (f : float) : outcome Z :=
  match Prim2SF f with
  | S754_zero _ => Returned 0%Z
  | S754_finite s m e =>
      let v := if (0 <=? e)%Z then (Z.pos m * 2 ^ e)%Z
               else (Z.pos m / 2 ^ (- e))%Z in
      Returned (if s then (- v)%Z else v)
  | S754_infinity _ => Raised OverflowError
  | S754_nan => Raised ValueError
  end.

(** ** The libraries the program calls *)

(** Pillow.  [Image_open] is [Image.open] on the bytes of a file, which
    identifies the format and raises (as a rule [UnidentifiedImageError])
    when it cannot; [convert_RGB] is [convert("RGB")], which decodes the
    pixels and may raise in its turn ([OSError] on a truncated file, for
    one). *)
Class PIL := {
  Image : Type;
  Image_open : list N → outcome Image;
  convert_RGB : Image → outcome Image;
  width : Image → Z;
  height : Image → Z;
  resize : Image → Z * Z → outcome Image;
  encode_JPEG : Image → Z → bool → list N   (* quality, optimize *)
}.

(** The atproto client: what the service answers to each call. *)
Class Atproto := {
  login : option str → option str → outcome str;   (* client.me.did *)
  upload_blob : list N → outcome Blob;
  create_record : CreateRecordData → outcome ();
  get_current_time_iso : str
}.

Definition lift {A} (o : outcome A) : M A :=
  λ w, Build_Result o w [].

(** Toy instances, used to run the model on concrete inputs. *)

(** A toy codec: the first two bytes of a file give the width and the
    height in hundreds of pixels (a zero makes the file undecodable), and
    encoding writes one byte for every two pixels. *)
Definition toy_pil : PIL := {|
  Image := Z * Z;
  Image_open := λ c,
    match c with
    | b1 :: b2 :: _ =>
        if (b1 =? 0) || (b2 =? 0) then Raised UnidentifiedImageError
        else Returned (100 * Z.of_N b1, 100 * Z.of_N b2)%Z
    | _ => Raised UnidentifiedImageError
    end;
  convert_RGB := λ im, Returned im;
  width := fst;
  height := snd;
  resize := λ im sz, if decide (0 < sz.1 ∧ 0 < sz.2)%Z then Returned sz
                     else Raised ValueError;
  encode_JPEG := λ im _ _, replicate (Z.to_nat (im.1 * im.2 / 2)) 0
|}.

Definition toy_blob (data : list N) : Blob :=
  {| ref := lit "cid"; mime_type := lit "image/png";
     size := Z.of_nat (length data) |}.

(** A service that accepts everything. *)
Definition toy_client : Atproto := {|
  login := λ _ _, Returned (lit "did:plc:laura");
  upload_blob := λ data, Returned (toy_blob data);
  create_record := λ _, Returned ();
  get_current_time_iso := lit "2024-01-01T00:00:00Z"
|}.

(** A service that refuses the upload. *)
Definition failing_client : Atproto := {|
  login := λ _ _, Returned (lit "did:plc:laura");
  upload_blob := λ _, Raised BadRequestError;
  create_record := λ _, Returned ();
  get_current_time_iso := lit "2024-01-01T00:00:00Z"
|}.

Section Bot.

Context {pil : PIL} {client : Atproto}.

(** [os.getenv("BLUESKY_USERNAME")] and [os.getenv("BLUESKY_PASSWORD")]. *)
Context (BLUESKY_USERNAME BLUESKY_PASSWORD : option str).

(** ** The size adapter *)

(** [Image.open(path)]. *)
Definition PIL_open (path : str) : M Image :=
  c ← read_file path;
  lift (Image_open c).

(** [im.save(path, "JPEG", quality=.., optimize=..)]. *)
Definition PIL_save (im : Image) (path : str) (quality : Z) (optimize : bool)
  : M () :=
  write_file path (encode_JPEG im quality optimize).

(** [compress_image(image_path)]. *)
Definition compress_image (image_path : str) : M str :=
  let size_limit := 976560%Z in
  image_size ← getsize image_path;
  if (image_size <=? size_limit)%Z then mret image_path else
  print (Compressing image_path);;
  let compressed_image_path := image_path ++ lit "_compressed.jpg" in
  image ← PIL_open image_path;
  rgb_image ← lift (convert_RGB image);
  PIL_save rgb_image compressed_image_path 85 true;;
  image_size ← getsize compressed_image_path;
  if (image_size <=? size_limit)%Z then mret compressed_image_path else
  print (Resizing image_path);;
  let size_ratio := PrimFloat.mul (truediv size_limit image_size) float_0_9 in
  let resized_image_path := image_path ++ lit "_resized.jpg" in
  new_width ← lift (int_of_float
                (PrimFloat.mul (float_of_int (width image)) size_ratio));
  new_height ← lift (int_of_float
                (PrimFloat.mul (float_of_int (height image)) size_ratio));
  resized_image ← lift (resize rgb_image (new_width, new_height));
  PIL_save resized_image resized_image_path 85 true;;
  mret resized_image_path.

(** The [for file_path in [...]] loop of [delete_image_copies]. *)
Fixpoint delete_each (paths : list str) : M () :=
  match paths with
  | [] => mret ()
  | file_path :: rest =>
      present ← path_exists file_path;
      (if present : bool
       then remove file_path;; print (Deleted file_path)
       else mret ());;
      delete_each rest
  end.

(** [delete_image_copies(image_path)]. *)
Definition delete_image_copies (image_path : str) : M () :=
  let compressed_image_path := image_path ++ lit "_compressed.jpg" in
  let resized_image_path := image_path ++ lit "_resized.jpg" in
  delete_each [compressed_image_path; resized_image_path].

(** ** The posting run *)

Definition client_login (username password : option str) : M str :=
  emit (LoggedIn username password);; lift (login username password).

Definition client_upload_blob (data : list N) : M Blob :=
  emit (UploadedBlob data);; lift (upload_blob data).

Definition client_create_record (d : CreateRecordData) : M () :=
  emit (CreatedRecord d);; lift (create_record d).

(** The tag of the facet, the four code points of its literal. *)
Definition hashtag : str := [0x30C8; 0x30ED; 0x30D7; 0x30EA].

(** Truth value of what [get_next_image] returned: [None] and the empty
    string are false. *)
Definition truthy (v : option str) : bool :=
  match v with
  | None => false
  | Some s => negb (bool_decide (s = []))
  end.

(** [post_to_bluesky()]. *)
Definition post_to_bluesky : M () :=
  try_except
    (did ← client_login BLUESKY_USERNAME BLUESKY_PASSWORD;
     image_path ← get_next_image (lit "images/");
     if negb (truthy image_path) then print NoImagesToPost else
     let image_path := default [] image_path in
     posted ← is_image_posted image_path;
     if posted : bool then print (AlreadyPosted image_path) else
     let post_text : str := [] in
     let hashtag_length := Z.of_nat (length post_text) in
     let facets :=
       [ {| index := {| byteStart := 0; byteEnd := hashtag_length |};
            features := [FacetTag hashtag] |} ] in
     image_data ← read_file image_path;
     upload ← client_upload_blob image_data;
     let images := [ {| alt := []; image := upload |} ] in
     let embed := images in
     client_create_record
       {| repo := did;
          collection := lit "app.bsky.feed.post";
          record := {| text := post_text; facets := facets;
                       embed := embed;
                       created_at := get_current_time_iso |} |};;
     print (SuccessfullyPosted image_path);;
     log_posted_image image_path)
    (λ e, print (ErrorWhilePosting e)).

(** *** The runs of [post_to_bluesky], case by case *)

(** The record a run submits for the session [did] and the blob [upload]. *)
Definition record_for (did : str) (upload : Blob) : CreateRecordData :=
  {| repo := did;
     collection := lit "app.bsky.feed.post";
     record :=
       {| text := [];
          facets := [ {| index := {| byteStart := 0; byteEnd := 0 |};
                         features := [FacetTag hashtag] |} ];
          embed := [ {| alt := []; image := upload |} ];
          created_at := get_current_time_iso |} |}.

(** The slice of the record's text that the byte range of a facet
    selects (text within ASCII, where bytes and code points coincide). *)
Definition annotated_text (r : PostRecord) (f : Facet) : str :=
  take (Z.to_nat (byteEnd (index f) - byteStart (index f)))
    (drop (Z.to_nat (byteStart (index f))) (text r)).

(** [p] can come out of the selection and pass the guards. *)
Definition selectable (w : World) (p : str) : Prop :=
  p ∈ listing w (lit "images/*") ∧ (p ∉ stripped_lines w) ∧ p ≠ [].

(** [PostRun w evs fs]: a run from [w] emits [evs] and leaves the files
    [fs].  One constructor per way through [post_to_bluesky]. *)
Inductive PostRun (w : World) : list event → gmap str (list N) → Prop :=
  | LoginFailed e :
      login BLUESKY_USERNAME BLUESKY_PASSWORD = Raised e →
      PostRun w
        [LoggedIn BLUESKY_USERNAME BLUESKY_PASSWORD;
         Printed (ErrorWhilePosting e)]
        (files w)
  | NothingToPost did sel :
      login BLUESKY_USERNAME BLUESKY_PASSWORD = Returned did →
      ((∀ p, p ∈ listing w (lit "images/*") → p ∈ stripped_lines w)
       ∨ [] ∈ listing w (lit "images/*")) →
      sel ∈ [[]; [Printed NoImagesFound]; [Printed AllAlreadyPosted]] →
      PostRun w
        (LoggedIn BLUESKY_USERNAME BLUESKY_PASSWORD
           :: sel ++ [Printed NoImagesToPost])
        (files w)
  | ImageUnreadable did p :
      login BLUESKY_USERNAME BLUESKY_PASSWORD = Returned did →
      selectable w p →
      files w !! p = None →
      PostRun w
        [LoggedIn BLUESKY_USERNAME BLUESKY_PASSWORD;
         Printed (ErrorWhilePosting FileNotFoundError)]
        (files w)
  | UploadFailed did p c e :
      login BLUESKY_USERNAME BLUESKY_PASSWORD = Returned did →
      selectable w p →
      files w !! p = Some c →
      upload_blob c = Raised e →
      PostRun w
        [LoggedIn BLUESKY_USERNAME BLUESKY_PASSWORD; UploadedBlob c;
         Printed (ErrorWhilePosting e)]
        (files w)
  | SubmitFailed did p c b e :
      login BLUESKY_USERNAME BLUESKY_PASSWORD = Returned did →
      selectable w p →
      files w !! p = Some c →
      upload_blob c = Returned b →
      create_record (record_for did b) = Raised e →
      PostRun w
        [LoggedIn BLUESKY_USERNAME BLUESKY_PASSWORD; UploadedBlob c;
         CreatedRecord (record_for did b); Printed (ErrorWhilePosting e)]
        (files w)
  | PostedAndLogged did p c b :
      login BLUESKY_USERNAME BLUESKY_PASSWORD = Returned did →
      selectable w p →
      files w !! p = Some c →
      upload_blob c = Returned b →
      create_record (record_for did b) = Returned () →
      LOG_FILE ∉ readonly w →
      encodable p →
      PostRun w
        [LoggedIn BLUESKY_USERNAME BLUESKY_PASSWORD; UploadedBlob c;
         CreatedRecord (record_for did b); Printed (SuccessfullyPosted p);
         Printed (LoggedPostedImage p)]
        (<[LOG_FILE := default [] (files w !! LOG_FILE) ++ p ++ [LF]]>
           (files w))
  | PostedNotEncoded did p c b :
      login BLUESKY_USERNAME BLUESKY_PASSWORD = Returned did →
      selectable w p →
      files w !! p = Some c →
      upload_blob c = Returned b →
      create_record (record_for did b) = Returned () →
      LOG_FILE ∉ readonly w →
      ¬ encodable p →
      PostRun w
        [LoggedIn BLUESKY_USERNAME BLUESKY_PASSWORD; UploadedBlob c;
         CreatedRecord (record_for did b); Printed (SuccessfullyPosted p);
         Printed (ErrorLogging UnicodeEncodeError)]
        (<[LOG_FILE := default [] (files w !! LOG_FILE)]> (files w))
  | PostedNotLogged did p c b :
      login BLUESKY_USERNAME BLUESKY_PASSWORD = Returned did →
      selectable w p →
      files w !! p = Some c →
      upload_blob c = Returned b →
      create_record (record_for did b) = Returned () →
      LOG_FILE ∈ readonly w →
      PostRun w
        [LoggedIn BLUESKY_USERNAME BLUESKY_PASSWORD; UploadedBlob c;
         CreatedRecord (record_for did b); Printed (SuccessfullyPosted p);
         Printed (ErrorLogging PermissionError)]
        (files w).

End Bot.

(** ** Further definitions, for the facts beyond the claims *)

(** The images of [w_two], the first of them posted and logged. *)
Definition w_a_posted : World :=
  world_of {[ LOG_FILE := a_png ++ [LF]; a_png := [1; 2; 3]; b_png := [4] ]}
    [a_png; b_png].

(** One unposted image, and a log that cannot be written. *)
Definition w_locked_log : World :=
  {| files := {[ a_png := [1; 2; 3] ]};
     readonly := {[ LOG_FILE ]};
     listing := λ pattern,
       if decide (pattern = lit "images/*") then [a_png] else [];
     entropy := [] |}.

(** A file name that is not valid UTF-8: [glob] returns it with a lone
    surrogate in place of the offending byte. *)
Definition undecoded : str := lit "images/" ++ [0xDC80].

(** The only image is [undecoded]; there is no log yet. *)
Definition w_undecoded : World :=
  world_of {[ undecoded := [1; 2; 3] ]} [undecoded].

(** A service that refuses the login. *)
Definition locked_client : Atproto := {|
  login := λ _ _, Raised UnauthorizedError;
  upload_blob := λ data, Returned (toy_blob data);
  create_record := λ _, Returned ();
  get_current_time_iso := lit "2024-01-01T00:00:00Z"
|}.

(** A codec like [toy_pil] whose encoder always writes 2,000,000 bytes. *)
Definition stubborn_pil : PIL := {|
  Image := Z * Z;
  Image_open := Image_open (PIL := toy_pil);
  convert_RGB := λ im, Returned im;
  width := fst;
  height := snd;
  resize := resize (PIL := toy_pil);
  encode_JPEG := λ _ _ _, replicate (N.to_nat 2000000) 0
|}.

Section Adapter.

Context {pil : PIL}.

(** What the resize step of [compress_image] computes from the opened
    image, its RGB conversion and the size of the compressed copy. *)
Definition resized_image (image rgb_image : Image) (csize : Z)
  : outcome Image :=
  let size_ratio := PrimFloat.mul (truediv 976560 csize) float_0_9 in
  match int_of_float (PrimFloat.mul (float_of_int (width image)) size_ratio) with
  | Raised e => Raised e
  | Returned new_width =>
      match int_of_float
              (PrimFloat.mul (float_of_int (height image)) size_ratio) with
      | Raised e => Raised e
      | Returned new_height =>
          resize rgb_image (new_width, new_height)
      end
  end.

(** [AdaptRun p w r]: [compress_image p] run in [w] ends as [r].  One
    constructor per way through the function. *)
Inductive AdaptRun (p : str) (w : World) : Result str → Prop :=
  | SourceMissing :
      files w !! p = None →
      AdaptRun p w (Build_Result (Raised FileNotFoundError) w [])
  | WithinCeiling c :
      files w !! p = Some c →
      (Z.of_nat (length c) ≤ 976560)%Z →
      AdaptRun p w (Build_Result (Returned p) w [])
  | Undecodable c e :
      files w !! p = Some c →
      (976560 < Z.of_nat (length c))%Z →
      Image_open c = Raised e →
      AdaptRun p w (Build_Result (Raised e) w [Printed (Compressing p)])
  | Unconvertible c im e :
      files w !! p = Some c →
      (976560 < Z.of_nat (length c))%Z →
      Image_open c = Returned im →
      convert_RGB im = Raised e →
      AdaptRun p w (Build_Result (Raised e) w [Printed (Compressing p)])
  | CompressedDenied c im rgb :
      files w !! p = Some c →
      (976560 < Z.of_nat (length c))%Z →
      Image_open c = Returned im →
      convert_RGB im = Returned rgb →
      p ++ lit "_compressed.jpg" ∈ readonly w →
      AdaptRun p w
        (Build_Result (Raised PermissionError) w [Printed (Compressing p)])
  | CompressedFits c im rgb :
      let compressed := encode_JPEG rgb 85 true in
      files w !! p = Some c →
      (976560 < Z.of_nat (length c))%Z →
      Image_open c = Returned im →
      convert_RGB im = Returned rgb →
      p ++ lit "_compressed.jpg" ∉ readonly w →
      (Z.of_nat (length compressed) ≤ 976560)%Z →
      AdaptRun p w
        (Build_Result (Returned (p ++ lit "_compressed.jpg"))
           (set_files (<[p ++ lit "_compressed.jpg" := compressed]> (files w)) w)
           [Printed (Compressing p)])
  | ResizeFailed c im rgb e :
      let compressed := encode_JPEG rgb 85 true in
      files w !! p = Some c →
      (976560 < Z.of_nat (length c))%Z →
      Image_open c = Returned im →
      convert_RGB im = Returned rgb →
      p ++ lit "_compressed.jpg" ∉ readonly w →
      (976560 < Z.of_nat (length compressed))%Z →
      resized_image im rgb (Z.of_nat (length compressed)) = Raised e →
      AdaptRun p w
        (Build_Result (Raised e)
           (set_files (<[p ++ lit "_compressed.jpg" := compressed]> (files w)) w)
           [Printed (Compressing p); Printed (Resizing p)])
  | ResizedDenied c im rgb resized :
      let compressed := encode_JPEG rgb 85 true in
      files w !! p = Some c →
      (976560 < Z.of_nat (length c))%Z →
      Image_open c = Returned im →
      convert_RGB im = Returned rgb →
      p ++ lit "_compressed.jpg" ∉ readonly w →
      (976560 < Z.of_nat (length compressed))%Z →
      resized_image im rgb (Z.of_nat (length compressed)) = Returned resized →
      p ++ lit "_resized.jpg" ∈ readonly w →
      AdaptRun p w
        (Build_Result (Raised PermissionError)
           (set_files (<[p ++ lit "_compressed.jpg" := compressed]> (files w)) w)
           [Printed (Compressing p); Printed (Resizing p)])
  | Resized c im rgb resized :
      let compressed := encode_JPEG rgb 85 true in
      files w !! p = Some c →
      (976560 < Z.of_nat (length c))%Z →
      Image_open c = Returned im →
      convert_RGB im = Returned rgb →
      p ++ lit "_compressed.jpg" ∉ readonly w →
      (976560 < Z.of_nat (length compressed))%Z →
      resized_image im rgb (Z.of_nat (length compressed)) = Returned resized →
      p ++ lit "_resized.jpg" ∉ readonly w →
      AdaptRun p w
        (Build_Result (Returned (p ++ lit "_resized.jpg"))
           (set_files
              (<[p ++ lit "_resized.jpg" := encode_JPEG resized 85 true]>
                 (<[p ++ lit "_compressed.jpg" := compressed]> (files w)))
              w)
           [Printed (Compressing p); Printed (Resizing p)]).

End Adapter.

(** The log of [w] is missing, empty or ends in a newline. *)
Definition log_terminated (w : World) : Prop :=
  ∀ log, files w !! LOG_FILE = Some log → terminated log.

Section Runs.

Context {client : Atproto} (BLUESKY_USERNAME BLUESKY_PASSWORD : option str).

(** The world after [n] runs of [post_to_bluesky], one after the other
    (the script is started again and again by a scheduler). *)
Fixpoint runs (n : nat) (w : World) : World :=
  match n with
  | O => w
  | S n' =>
      runs n' (world (post_to_bluesky BLUESKY_USERNAME BLUESKY_PASSWORD w))
  end.

End Runs.

(** ** Proof automation *)

(** Unfolds the monad and the primitives of the world. *)
Ltac munfold :=
  unfold mbind, M_bind, mret, M_ret, try_except_only, try_except, raise,
    print, emit, lift, getsize, PIL_open, PIL_save, read_file, write_file,
    append_file, path_exists, remove, glob in *.

(** Reduces the matches a step has decided, and nothing else. *)
Ltac mred :=
  cbn [out world emitted files readonly listing entropy set_files
       set_entropy app default from_option id negb truthy].

(** Case analysis of a membership in an explicit list. *)
Ltac in_list H :=
  repeat match type of H with
         | _ ∈ [] => by apply elem_of_nil in H
         | _ ∈ _ :: _ =>
             let H' := fresh in
             destruct (proj1 (elem_of_cons _ _ _) H) as [H'|H'];
             clear H; rename H' into H
         | _ ∈ _ ++ _ =>
             let H' := fresh in
             destruct (proj1 (elem_of_app _ _ _) H) as [H'|H'];
             clear H; rename H' into H
         | _ = _ => progress (try discriminate H)
         end.

(** The selection prints at most one of its two lines. *)
Ltac selection_prints :=
  match goal with
  | H : _ ∈ [[]; [Printed NoImagesFound]; [Printed AllAlreadyPosted]] |- _ =>
      in_list H; subst
  end.

(** * Facts *)

(** ** Facts about strings *)

Lemma lstrip_length (s : str) : (length (lstrip s) ≤ length s)%nat.
Proof. induction s as [|c s IH]; simpl; [lia|]. destruct (isspace c); simpl; lia. Qed.

Lemma rstrip_length (s : str) : (length (rstrip s) ≤ length s)%nat.
Proof.
  unfold rstrip. rewrite length_reverse.
  etrans; [apply lstrip_length|]. by rewrite length_reverse.
Qed.

Lemma strip_fixed_head (c : N) (s : str) :
  strip (c :: s) = c :: s → isspace c = false.
Proof.
  intros H. destruct (isspace c) eqn:Hc; [|done].
  exfalso. assert (length (strip (c :: s)) ≤ length s)%nat as Hlen.
  { unfold strip. simpl. rewrite Hc.
    etrans; [apply rstrip_length|apply lstrip_length]. }
  rewrite H in Hlen. simpl in Hlen. lia.
Qed.

Lemma isspace_LF : isspace LF = true.
Proof. reflexivity. Qed.

Lemma strip_line (p : str) : strip p = p → strip (p ++ [LF]) = p.
Proof.
  intros H. destruct p as [|c p]; [reflexivity|].
  pose proof (strip_fixed_head _ _ H) as Hc.
  unfold strip in *. simpl in *. rewrite Hc in *.
  unfold rstrip in *.
  change (c :: p ++ [LF]) with ((c :: p) ++ [LF]).
  rewrite reverse_app. simpl. exact H.
Qed.

Lemma universal_newlines_id (s : str) : CR ∉ s → universal_newlines s = s.
Proof.
  induction s as [|c s IH]; intros H; [done|].
  apply not_elem_of_cons in H as [Hc Hs]. simpl.
  destruct (N.eqb_spec c CR); [congruence|]. by rewrite IH.
Qed.

Lemma universal_newlines_CR_LF (s : str) :
  universal_newlines (CR :: LF :: s) = LF :: universal_newlines s.
Proof. reflexivity. Qed.

Lemma universal_newlines_CR (c : N) (s : str) :
  c ≠ LF →
  universal_newlines (CR :: c :: s) = LF :: universal_newlines (c :: s).
Proof.
  intros Hc. cbn [universal_newlines].
  replace (CR =? CR) with true by reflexivity.
  by destruct (N.eqb_spec c LF).
Qed.

Lemma universal_newlines_other (c : N) (s : str) :
  c ≠ CR → universal_newlines (c :: s) = c :: universal_newlines s.
Proof. intros Hc. cbn [universal_newlines]. by destruct (N.eqb_spec c CR). Qed.

(** The three shapes a non-empty text has for [universal_newlines]. *)
Lemma newline_cases (s : str) :
  s = [] ∨ s = [CR] ∨ (∃ t, s = CR :: LF :: t)
  ∨ (∃ c t, s = CR :: c :: t ∧ c ≠ LF) ∨ (∃ c t, s = c :: t ∧ c ≠ CR).
Proof.
  destruct s as [|c s]; [by left|].
  destruct (decide (c = CR)) as [->|Hc]; [|right; right; right; right; eauto].
  destruct s as [|c' s]; [by right; left|].
  destruct (decide (c' = LF)) as [->|Hc']; [right; right; left; eauto|].
  right; right; right; left; eauto.
Qed.

Lemma universal_newlines_app (a b : str) :
  last a ≠ Some CR →
  universal_newlines (a ++ b) = universal_newlines a ++ universal_newlines b.
Proof.
  remember (length a) as n eqn:Hn. revert a Hn.
  induction n as [n IH] using lt_wf_ind. intros a Hn Hlast.
  destruct (newline_cases a)
    as [->|[->|[[t ->]|[(c & t & -> & Hc)|(c & t & -> & Hc)]]]];
    [done|done|..].
  - cbn [app]. rewrite !universal_newlines_CR_LF. cbn [app]. f_equal.
    eapply IH; [|done|]; [simpl in *; lia|].
    destruct t; [done|]. exact Hlast.
  - cbn [app]. rewrite !universal_newlines_CR by done. cbn [app]. f_equal.
    change (c :: t ++ b) with ((c :: t) ++ b).
    eapply IH; [|done|]; [simpl in *; lia|]. exact Hlast.
  - cbn [app]. rewrite !universal_newlines_other by done. cbn [app]. f_equal.
    eapply IH; [|done|]; [simpl in *; lia|].
    destruct t; [done|]. exact Hlast.
Qed.

Lemma universal_newlines_ends_LF (a : str) :
  ∃ u, universal_newlines (a ++ [LF]) = u ++ [LF].
Proof.
  remember (length a) as n eqn:Hn. revert a Hn.
  induction n as [n IH] using lt_wf_ind. intros a Hn.
  destruct (newline_cases a)
    as [->|[->|[[t ->]|[(c & t & -> & Hc)|(c & t & -> & Hc)]]]].
  - by exists [].
  - by exists [].
  - destruct (IH (length t)) with (a := t) as [u Hu]; [simpl in *; lia|done|].
    exists (LF :: u). cbn [app]. by rewrite universal_newlines_CR_LF, Hu.
  - destruct (IH (length (c :: t))) with (a := c :: t) as [u Hu];
      [simpl in *; lia|done|].
    exists (LF :: u). cbn [app] in *. by rewrite universal_newlines_CR, Hu.
  - destruct (IH (length t)) with (a := t) as [u Hu]; [simpl in *; lia|done|].
    exists (c :: u). cbn [app]. by rewrite universal_newlines_other, Hu.
Qed.

Lemma readlines_nonempty (s : str) : s ≠ [] → readlines s ≠ [].
Proof.
  destruct s as [|c s]; [done|]. intros _. simpl.
  destruct (c =? LF); [done|]. by destruct (readlines s).
Qed.

Lemma readlines_app (a b : str) :
  readlines ((a ++ [LF]) ++ b) = readlines (a ++ [LF]) ++ readlines b.
Proof.
  induction a as [|c a IH]; [done|]. simpl.
  destruct (c =? LF); [by rewrite IH|].
  rewrite IH.
  pose proof (readlines_nonempty (a ++ [LF])) as Hne.
  destruct (readlines (a ++ [LF])); [|done].
  exfalso. apply Hne; [|done]. by destruct a.
Qed.

Lemma readlines_one_line (p : str) : LF ∉ p → readlines (p ++ [LF]) = [p ++ [LF]].
Proof.
  induction p as [|c p IH]; intros H; [done|].
  apply not_elem_of_cons in H as [Hc Hp]. simpl.
  destruct (N.eqb_spec c LF); [congruence|]. by rewrite IH.
Qed.

(** After [p] and a newline are appended to a log that is empty or ends in
    a newline, [p] is among the stripped lines read back. *)
Lemma appended_line_is_read (log p : str) :
  log = [] ∨ last log = Some LF →
  strip p = p → LF ∉ p → CR ∉ p →
  p ∈ strip <$> readlines (universal_newlines (log ++ p ++ [LF])).
Proof.
  intros Hlog Hstrip HLF HCR.
  assert (universal_newlines (p ++ [LF]) = p ++ [LF]) as Hp.
  { apply universal_newlines_id. rewrite elem_of_app, list_elem_of_singleton.
    intros [?|?]; done. }
  destruct Hlog as [->|Hlast].
  - simpl. rewrite Hp, readlines_one_line by done. simpl.
    rewrite strip_line by done. set_solver.
  - rewrite universal_newlines_app, Hp by (rewrite Hlast; done).
    apply last_Some in Hlast as [a ->].
    destruct (universal_newlines_ends_LF a) as [u ->].
    rewrite readlines_app, fmap_app, (readlines_one_line p) by done. simpl.
    rewrite strip_line by done. set_solver.
Qed.

(** ** Running the monad *)

Lemma bind_returned {A B} (m : M A) (f : A → M B) (w w' : World) a evs :
  m w = Build_Result (Returned a) w' evs →
  (m ≫= f) w =
  match f a w' with
  | Build_Result o w2 evs2 => Build_Result o w2 (evs ++ evs2)
  end.
Proof. intros H. unfold mbind, M_bind. by rewrite H. Qed.

Lemma bind_raised {A B} (m : M A) (f : A → M B) (w w' : World) e evs :
  m w = Build_Result (Raised e) w' evs →
  (m ≫= f) w = Build_Result (Raised e) w' evs.
Proof. intros H. unfold mbind, M_bind. by rewrite H. Qed.

(** ** The post log *)

Lemma is_image_posted_run (p : str) (w : World) :
  is_image_posted p w =
  Build_Result (Returned (bool_decide (p ∈ stripped_lines w))) w [].
Proof.
  unfold is_image_posted, try_except_only, try_except, mbind, M_bind,
    mret, M_ret, read_file, stripped_lines.
  by destruct (files w !! LOG_FILE) as [log|].
Qed.

Lemma stripped_lines_set_entropy ds w :
  stripped_lines (set_entropy ds w) = stripped_lines w.
Proof. reflexivity. Qed.

(** ** Selection *)

Lemma first_unposted_run (images : list str) (w : World) :
  first_unposted images w =
  Build_Result (Returned (find (unposted w) images)) w [].
Proof.
  induction images as [|image rest IH]; [done|].
  cbn [first_unposted find].
  rewrite (bind_returned _ _ _ _ _ _ (is_image_posted_run image w)).
  unfold unposted at 1.
  destruct (negb _); [done|]. by rewrite IH.
Qed.

Lemma insert_Permutation {A} (l : list A) i a b :
  l !! i = Some a → <[i := b]> l ≡ₚ b :: delete i l.
Proof.
  intros H. assert (i < length l)%nat by (by eapply lookup_lt_Some).
  rewrite (delete_Permutation (<[i := b]> l) i b)
    by (by apply list_lookup_insert_eq).
  f_equiv. clear H. revert i H0.
  induction l as [|x l IH]; intros [|i] Hi; simpl in *; try lia; [done|].
  f_equiv. apply IH. lia.
Qed.

Lemma swap_Permutation (x : list str) i j : swap x i j ≡ₚ x.
Proof.
  unfold swap.
  destruct (x !! i) as [a|] eqn:Hi; [|done].
  destruct (x !! j) as [b|] eqn:Hj; [|done].
  destruct (decide (i = j)) as [->|Hij].
  - assert (a = b) as -> by congruence.
    by rewrite !list_insert_id
      by (done || by rewrite list_insert_id).
  - assert (<[i := b]> x !! j = Some b) as Hj'
      by (by rewrite list_lookup_insert_ne).
    etrans; [apply (insert_Permutation _ j b a Hj')|].
    etrans; [|symmetry; apply (delete_Permutation x i a Hi)].
    f_equiv. apply (Permutation_cons_inv (a := b)).
    etrans; [symmetry; apply (delete_Permutation _ j b Hj')|].
    by apply insert_Permutation with a.
Qed.

Lemma randbelow_run (n : nat) (w : World) :
  ∃ j ds, randbelow n w = Build_Result (Returned j) (set_entropy ds w) [].
Proof.
  unfold randbelow. destruct (entropy w) as [|d ds] eqn:He.
  - exists 0%nat, []. f_equal. destruct w; simpl in *; by subst.
  - by eexists _, _.
Qed.

Lemma shuffle_from_run (i : nat) (x : list str) (w : World) :
  ∃ x' ds,
    shuffle_from i x w = Build_Result (Returned x') (set_entropy ds w) []
    ∧ x' ≡ₚ x.
Proof.
  revert x w. induction i as [|i IH]; intros x w.
  - exists x, (entropy w). split; [|done].
    cbn. f_equal. by destruct w.
  - cbn [shuffle_from].
    destruct (randbelow_run (S (S i)) w) as (j & ds & Hj).
    destruct (IH (swap x (S i) j) (set_entropy ds w)) as (x' & ds' & Hx' & Hp).
    exists x', ds'. split.
    + rewrite (bind_returned _ _ _ _ _ _ Hj), Hx'. done.
    + by rewrite Hp, swap_Permutation.
Qed.

Lemma shuffle_run (x : list str) (w : World) :
  ∃ x' ds,
    shuffle x w = Build_Result (Returned x') (set_entropy ds w) [] ∧ x' ≡ₚ x.
Proof. apply shuffle_from_run. Qed.

(** What a call of [get_next_image] amounts to: the first unposted
    entry of some permutation of the directory listing. *)
Lemma get_next_image_run (directory : str) (w : World) :
  ∃ x' ds,
    x' ≡ₚ listing w (directory ++ lit "*") ∧
    get_next_image directory w =
    Build_Result (Returned (find (unposted w) x')) (set_entropy ds w)
      (match x' with
       | [] => [Printed NoImagesFound]
       | _ => match find (unposted w) x' with
              | Some _ => []
              | None => [Printed AllAlreadyPosted]
              end
       end).
Proof.
  destruct (shuffle_run (listing w (directory ++ lit "*")) w)
    as (x' & ds & Hrun & Hperm).
  exists x', ds. split; [done|].
  unfold get_next_image, glob.
  unfold mbind at 1, M_bind at 1.
  rewrite (bind_returned _ _ _ _ _ _ Hrun).
  destruct x' as [|image rest]; [done|].
  rewrite (bind_returned _ _ _ _ _ _ (first_unposted_run _ _)).
  change (unposted (set_entropy ds w)) with (unposted w).
  destruct (find (unposted w) (image :: rest)); done.
Qed.


Lemma find_unposted_None (w : World) (l : list str) :
  find (unposted w) l = None ↔ ∀ p, p ∈ l → p ∈ stripped_lines w.
Proof.
  split.
  - intros H p Hp. apply list_elem_of_In in Hp.
    pose proof (find_none _ _ H p Hp) as Hf. unfold unposted in Hf.
    apply negb_false_iff, bool_decide_eq_true in Hf. done.
  - intros H. destruct (find (unposted w) l) as [p|] eqn:Hf; [|done].
    apply find_some in Hf as [Hin Hf]. apply list_elem_of_In, H in Hin.
    unfold unposted in Hf. apply negb_true_iff, bool_decide_eq_false in Hf.
    done.
Qed.

Lemma find_unposted_Some (w : World) (l : list str) (p : str) :
  find (unposted w) l = Some p → p ∈ l ∧ p ∉ stripped_lines w.
Proof.
  intros Hf. apply find_some in Hf as [Hin Hf]. split.
  - by apply list_elem_of_In.
  - unfold unposted in Hf. by apply negb_true_iff, bool_decide_eq_false in Hf.
Qed.


(** C2 (where the code departs from the claim).  The image [spaced],
    whose name ends in a space, has been logged: the log of [w_spaced] is
    the one [log_posted_image spaced] writes, and [spaced] is a line of
    it.  [get_next_image] returns [spaced] all the same, because
    [is_image_posted] strips the lines it reads and not the path it looks
    for. *)
Lemma get_next_image_returns_logged_path :
  out (get_next_image (lit "images/") w_spaced) = Returned (Some spaced)
  ∧ isPosted_spec spaced w_spaced = true
  ∧ files w_spaced !! LOG_FILE = Some (spaced ++ [LF])
  ∧ files (world (log_posted_image spaced
                    (world_of {[ spaced := [1; 2; 3] ]} [spaced])))
    = files w_spaced.
Proof. by vm_compute. Qed.

Lemma encodable_line (p : str) : encodable (p ++ [LF]) ↔ encodable p.
Proof.
  unfold encodable. rewrite Forall_app, Forall_singleton.
  split; [by intros [H _]|]. intros H. split; [done|]. unfold LF. lia.
Qed.

Lemma log_posted_image_run (p : str) (w : World) :
  LOG_FILE ∉ readonly w →
  encodable p →
  log_posted_image p w =
  Build_Result (Returned ())
    (set_files
       (<[LOG_FILE := default [] (files w !! LOG_FILE) ++ p ++ [LF]]> (files w))
       w)
    [Printed (LoggedPostedImage p)].
Proof.
  intros Hro Hp. unfold log_posted_image, try_except, append_file, print,
    mbind, M_bind.
  rewrite decide_False by done.
  by rewrite decide_True by (by apply encodable_line).
Qed.

Lemma log_posted_image_not_encoded (p : str) (w : World) :
  LOG_FILE ∉ readonly w →
  ¬ encodable p →
  log_posted_image p w =
  Build_Result (Returned ())
    (set_files (<[LOG_FILE := default [] (files w !! LOG_FILE)]> (files w)) w)
    [Printed (ErrorLogging UnicodeEncodeError)].
Proof.
  intros Hro Hp. unfold log_posted_image, try_except, append_file, print,
    mbind, M_bind.
  rewrite decide_False by done.
  by rewrite decide_False by (by rewrite encodable_line).
Qed.

Lemma log_posted_image_denied (p : str) (w : World) :
  LOG_FILE ∈ readonly w →
  log_posted_image p w =
  Build_Result (Returned ()) w [Printed (ErrorLogging PermissionError)].
Proof.
  intros Hro. unfold log_posted_image, try_except, append_file, print,
    mbind, M_bind.
  by rewrite decide_True by done.
Qed.

(** Where the round trip does hold: when the log can be written, is
    missing, empty or ends in a newline, and [p] can be encoded, has no
    whitespace at either end and no line break inside,
    [log_posted_image p] followed by [is_image_posted p] returns true. *)
Lemma logged_image_is_posted (p : str) (w : World) :
  LOG_FILE ∉ readonly w →
  (∀ log, files w !! LOG_FILE = Some log → terminated log) →
  encodable p →
  strip p = p → LF ∉ p → CR ∉ p →
  out ((log_posted_image p;; is_image_posted p) w) = Returned true.
Proof.
  intros Hro Hlog Hp Hstrip HLF HCR.
  rewrite (bind_returned _ _ _ _ _ _ (log_posted_image_run p w Hro Hp)).
  rewrite is_image_posted_run. cbn [out]. f_equal.
  apply bool_decide_eq_true. unfold stripped_lines. cbn [files set_files].
  rewrite lookup_insert_eq.
  apply appended_line_is_read; [|done..].
  destruct (files w !! LOG_FILE) as [log|] eqn:Hl; [by apply Hlog|by left].
Qed.

(** C7 (where the code departs from the claim).  The round trip fails
    for a path that ends in a space: [log_posted_image] writes it to the
    log as it is, and [is_image_posted], which strips the lines it reads
    and not the path it looks for, then reports it as not posted. *)
Lemma logged_spaced_path_is_not_posted :
  out ((log_posted_image spaced;; is_image_posted spaced) (world_of ∅ []))
  = Returned false
  ∧ files (world (log_posted_image spaced (world_of ∅ []))) !! LOG_FILE
    = Some (spaced ++ [LF]).
Proof. by vm_compute. Qed.

(** The round trip on a plain path and a fresh log. *)
Lemma logged_image_is_posted_example :
  out ((log_posted_image a_png;; is_image_posted a_png) w_two) = Returned true.
Proof.
  apply logged_image_is_posted.
  - apply not_elem_of_empty.
  - intros log Hlog. by vm_compute in Hlog.
  - apply (bool_decide_unpack _). by vm_compute.
  - by vm_compute.
  - apply (bool_decide_unpack _). by vm_compute.
  - apply (bool_decide_unpack _). by vm_compute.
Defined.


(** Where no line of the log carries whitespace besides its terminator,
    [is_image_posted] is the specification's [isPosted]. *)
Lemma is_image_posted_agrees_with_spec (path : str) (w : World) :
  (∀ log line, files w !! LOG_FILE = Some log →
     line ∈ readlines (universal_newlines log) →
     strip line = strip_terminator line) →
  out (is_image_posted path w) = Returned (isPosted_spec path w).
Proof.
  intros H. rewrite is_image_posted_run. cbn [out]. f_equal.
  unfold isPosted_spec, stripped_lines. destruct (files w !! LOG_FILE) as [log|] eqn:Hl; [|done].
  assert (strip <$> readlines (universal_newlines log)
          = strip_terminator <$> readlines (universal_newlines log)) as ->;
    [|done].
  apply list_fmap_ext. intros i line Hi.
  eapply H; [done|]. by eapply list_elem_of_lookup_2.
Qed.

(** Under the same condition, the stripped lines are the lines of the
    specification. *)
Lemma stripped_lines_agree_with_spec (path : str) (w : World) :
  (∀ log line, files w !! LOG_FILE = Some log →
     line ∈ readlines (universal_newlines log) →
     strip line = strip_terminator line) →
  path ∈ stripped_lines w ↔ isPosted_spec path w = true.
Proof.
  intros H. pose proof (is_image_posted_agrees_with_spec path w H) as Heq.
  rewrite is_image_posted_run in Heq. cbn [out] in Heq.
  injection Heq as <-. by rewrite bool_decide_eq_true.
Qed.


(** ** The size adapter and the posting run *)

Section BotFacts.
Context {pil : PIL} {client : Atproto} (U P : option str).

Lemma compress_image_files (p : str) (w : World) :
  let fs' := files (world (compress_image p w)) in
  fs' = files w
  ∨ (∃ c1, fs' = <[p ++ lit "_compressed.jpg" := c1]> (files w))
  ∨ (∃ c1 c2, fs' = <[p ++ lit "_resized.jpg" := c2]>
                      (<[p ++ lit "_compressed.jpg" := c1]> (files w))).
Proof.
  unfold compress_image. repeat munfold.
  destruct (files w !! p) as [c|] eqn:Hc; mred; [|by left].
  destruct (Z.of_nat (length c) <=? 976560)%Z; mred; [by left|].
  rewrite Hc; mred.
  destruct (Image_open c) as [im|]; mred; [|by left].
  destruct (convert_RGB im) as [rgb|]; mred; [|by left].
  destruct (decide (p ++ lit "_compressed.jpg" ∈ readonly w)); mred; [by left|].
  rewrite lookup_insert_eq. mred.
  destruct (_ <=? 976560)%Z; mred; [by right; left; eexists|].
  destruct (int_of_float _); mred; [|by right; left; eexists].
  destruct (int_of_float _); mred; [|by right; left; eexists].
  destruct (resize _ _); mred; [|by right; left; eexists].
  destruct (decide (p ++ lit "_resized.jpg" ∈ readonly w)); mred;
    [by right; left; eexists|].
  by right; right; eexists _, _.
Qed.

Lemma post_to_bluesky_run (w : World) :
  PostRun U P w (emitted (post_to_bluesky U P w))
    (files (world (post_to_bluesky U P w))).
Proof.
  destruct (get_next_image_run (lit "images/") w) as (x' & ds & Hperm & Hsel).
  change (lit "images/" ++ lit "*") with (lit "images/*") in Hperm.
  unfold post_to_bluesky, client_login, client_upload_blob,
    client_create_record, log_posted_image. munfold.
  destruct (login U P) as [did|e] eqn:Hlogin; cbn [out world emitted app];
    [|by apply LoginFailed].
  rewrite Hsel.
  destruct (find (unposted w) x') as [p|] eqn:Hfind; cycle 1.
  { mred. pose proof (proj1 (find_unposted_None _ _) Hfind) as Hall.
    eapply (NothingToPost _ _ _ did); [done| |].
    - left. intros p Hp. apply Hall. by rewrite Hperm.
    - destruct x'; set_solver. }
  apply find_unposted_Some in Hfind as [Hin Hnot]. rewrite Hperm in Hin.
  cbn [truthy negb].
  destruct (bool_decide (p = [])) eqn:Hp; cbn [negb].
  { apply bool_decide_eq_true in Hp as ->. mred.
    eapply (NothingToPost _ _ _ did); [done|by right|].
    destruct x'; set_solver. }
  apply bool_decide_eq_false in Hp.
  destruct x' as [|image rest].
  { apply Permutation_nil_l in Hperm. rewrite <- Hperm in Hin. set_solver. }
  mred. rewrite is_image_posted_run.
  change (stripped_lines (set_entropy ds w)) with (stripped_lines w).
  rewrite bool_decide_false by done.
  mred.
  assert (selectable w p) as Hsel' by done.
  destruct (files w !! p) as [c|] eqn:Hc; mred; [|by eapply ImageUnreadable].
  destruct (upload_blob c) as [b|e] eqn:Hup; mred; [|by eapply UploadFailed].
  change ({| repo := did; collection := _; record := _ |})
    with (record_for did b).
  destruct (create_record (record_for did b)) as [[]|e] eqn:Hcr; mred;
    [|by eapply SubmitFailed].
  destruct (decide (LOG_FILE ∈ readonly w)) as [Hro|Hro]; mred;
    [by eapply PostedNotLogged|].
  destruct (decide (encodable (p ++ [LF]))) as [Henc|Henc]; mred;
    rewrite encodable_line in Henc.
  - by eapply PostedAndLogged.
  - by eapply PostedNotEncoded.
Qed.


Lemma path_neq_suffixed (p suffix : str) : suffix ≠ [] → p ≠ p ++ suffix.
Proof.
  intros Hs Heq. apply (f_equal length) in Heq. rewrite length_app in Heq.
  destruct suffix; [done|]. simpl in Heq. lia.
Qed.

(** *** The three ways through [compress_image] *)

Lemma compress_image_unchanged (p : str) (w : World) (c : list N) :
  files w !! p = Some c →
  (Z.of_nat (length c) ≤ 976560)%Z →
  compress_image p w = Build_Result (Returned p) w [].
Proof.
  intros Hc Hsize. unfold compress_image. repeat munfold.
  rewrite Hc. mred. by rewrite (proj2 (Z.leb_le _ _) Hsize).
Qed.

Lemma compress_image_undecodable
    (p : str) (w : World) (c : list N) (e : exn) :
  files w !! p = Some c →
  (976560 < Z.of_nat (length c))%Z →
  Image_open c = Raised e →
  compress_image p w =
  Build_Result (Raised e) w [Printed (Compressing p)].
Proof.
  intros Hc Hsize Hopen. unfold compress_image. repeat munfold.
  rewrite Hc. mred. rewrite (proj2 (Z.leb_gt _ _) Hsize). mred.
  rewrite Hc. mred. by rewrite Hopen.
Qed.

Lemma compress_image_unconvertible
    (p : str) (w : World) (c : list N) (im : Image) (e : exn) :
  files w !! p = Some c →
  (976560 < Z.of_nat (length c))%Z →
  Image_open c = Returned im →
  convert_RGB im = Raised e →
  compress_image p w =
  Build_Result (Raised e) w [Printed (Compressing p)].
Proof.
  intros Hc Hsize Hopen Hconv. unfold compress_image. repeat munfold.
  rewrite Hc. mred. rewrite (proj2 (Z.leb_gt _ _) Hsize). mred.
  rewrite Hc. mred. rewrite Hopen. mred. by rewrite Hconv.
Qed.

Lemma compress_image_compressed
    (p : str) (w : World) (c : list N) (im rgb : Image) :
  let compressed := encode_JPEG rgb 85 true in
  files w !! p = Some c →
  (976560 < Z.of_nat (length c))%Z →
  Image_open c = Returned im →
  convert_RGB im = Returned rgb →
  p ++ lit "_compressed.jpg" ∉ readonly w →
  (Z.of_nat (length compressed) ≤ 976560)%Z →
  compress_image p w =
  Build_Result (Returned (p ++ lit "_compressed.jpg"))
    (set_files (<[p ++ lit "_compressed.jpg" := compressed]> (files w)) w)
    [Printed (Compressing p)].
Proof.
  intros compressed Hc Hsize Hopen Hconv Hro Hcsize.
  unfold compress_image. repeat munfold.
  rewrite Hc. mred. rewrite (proj2 (Z.leb_gt _ _) Hsize). mred.
  rewrite Hc. mred. rewrite Hopen. mred. rewrite Hconv. mred.
  rewrite decide_False by done. mred.
  rewrite lookup_insert_eq. mred.
  fold compressed. by rewrite (proj2 (Z.leb_le _ _) Hcsize).
Qed.

Lemma compress_image_resized
    (p : str) (w : World) (c : list N) (im rgb : Image)
    (csize new_width new_height : Z) (resized : Image) :
  let compressed := encode_JPEG rgb 85 true in
  let size_ratio := PrimFloat.mul (truediv 976560 csize) float_0_9 in
  files w !! p = Some c →
  (976560 < Z.of_nat (length c))%Z →
  Image_open c = Returned im →
  convert_RGB im = Returned rgb →
  p ++ lit "_compressed.jpg" ∉ readonly w →
  p ++ lit "_resized.jpg" ∉ readonly w →
  Z.of_nat (length compressed) = csize →
  (976560 < csize)%Z →
  int_of_float (PrimFloat.mul (float_of_int (width im)) size_ratio)
    = Returned new_width →
  int_of_float (PrimFloat.mul (float_of_int (height im)) size_ratio)
    = Returned new_height →
  resize rgb (new_width, new_height) = Returned resized →
  compress_image p w =
  Build_Result (Returned (p ++ lit "_resized.jpg"))
    (set_files
       (<[p ++ lit "_resized.jpg" := encode_JPEG resized 85 true]>
          (<[p ++ lit "_compressed.jpg" := compressed]> (files w)))
       w)
    [Printed (Compressing p); Printed (Resizing p)].
Proof.
  intros compressed size_ratio Hc Hsize Hopen Hconv Hro1 Hro2 Hcsize Hbig
    Hw Hh Hres.
  unfold compress_image. repeat munfold.
  rewrite Hc. mred. rewrite (proj2 (Z.leb_gt _ _) Hsize). mred.
  rewrite Hc. mred. rewrite Hopen. mred. rewrite Hconv. mred.
  rewrite decide_False by done. mred.
  rewrite lookup_insert_eq. mred.
  fold compressed. rewrite Hcsize.
  rewrite (proj2 (Z.leb_gt _ _) Hbig). mred.
  fold size_ratio. rewrite Hw. mred. rewrite Hh. mred. rewrite Hres. mred.
  by rewrite decide_False by done.
Qed.

(** C3.  For every stored file of at most 976,560 bytes (that many
    included), whatever the codec, [compress_image] returns the path it
    was given and leaves the world as it was: nothing is decoded or
    encoded, no file is written and nothing is printed. *)
Theorem compress_image_within_ceiling (p : str) (w : World) (c : list N) :
  files w !! p = Some c →
  (Z.of_nat (length c) ≤ 976560)%Z →
  compress_image p w = Build_Result (Returned p) w []
  ∧ files (world (compress_image p w)) !! (p ++ lit "_compressed.jpg")
    = files w !! (p ++ lit "_compressed.jpg").
Proof.
  intros Hc Hsize. by rewrite (compress_image_unchanged p w c).
Qed.

(** C4.  When the file and its compressed copy both exceed the ceiling
    (and the codec opens, converts and resizes the image and the derived
    files can be written), [compress_image] takes the ratio
    [976560 / compressed size * 0.9], multiplies width and height by it
    and truncates, saves the resized image with quality 85 and
    optimisation as [<path>_resized.jpg], and returns that path, whatever
    the size of what it saved. *)
Theorem compress_image_resizes_once
    (p : str) (w : World) (c : list N) (im rgb : Image)
    (csize new_width new_height : Z) (resized : Image) :
  let compressed := encode_JPEG rgb 85 true in
  let size_ratio := PrimFloat.mul (truediv 976560 csize) float_0_9 in
  files w !! p = Some c →
  (976560 < Z.of_nat (length c))%Z →
  Image_open c = Returned im →
  convert_RGB im = Returned rgb →
  p ++ lit "_compressed.jpg" ∉ readonly w →
  p ++ lit "_resized.jpg" ∉ readonly w →
  Z.of_nat (length compressed) = csize →
  (976560 < csize)%Z →
  int_of_float (PrimFloat.mul (float_of_int (width im)) size_ratio)
    = Returned new_width →
  int_of_float (PrimFloat.mul (float_of_int (height im)) size_ratio)
    = Returned new_height →
  resize rgb (new_width, new_height) = Returned resized →
  out (compress_image p w) = Returned (p ++ lit "_resized.jpg")
  ∧ files (world (compress_image p w)) !! (p ++ lit "_resized.jpg")
    = Some (encode_JPEG resized 85 true)
  ∧ emitted (compress_image p w)
    = [Printed (Compressing p); Printed (Resizing p)].
Proof.
  intros compressed size_ratio Hc Hsize Hopen Hconv Hro1 Hro2 Hcsize Hbig
    Hw Hh Hres.
  rewrite (compress_image_resized p w c im rgb csize new_width new_height
             resized) by done.
  cbn [out world emitted files set_files]. by rewrite lookup_insert_eq.
Qed.

(** C10.  Whatever its input and its outcome, [compress_image] changes
    no file other than [<path>_compressed.jpg] and [<path>_resized.jpg];
    the file at the path it was given is as before. *)
Theorem compress_image_keeps_original (p : str) (w : World) :
  (∀ q, q ∉ [p ++ lit "_compressed.jpg"; p ++ lit "_resized.jpg"] →
        files (world (compress_image p w)) !! q = files w !! q)
  ∧ files (world (compress_image p w)) !! p = files w !! p.
Proof.
  assert (∀ q, q ∉ [p ++ lit "_compressed.jpg"; p ++ lit "_resized.jpg"] →
        files (world (compress_image p w)) !! q = files w !! q) as Hframe.
  { intros q Hq.
    apply not_elem_of_cons in Hq as [Hq1 Hq2].
    apply not_elem_of_cons in Hq2 as [Hq2 _].
    destruct (compress_image_files p w) as [->|[[c1 ->]|(c1 & c2 & ->)]];
      [done|..]; by rewrite ?lookup_insert_ne by done. }
  split; [done|]. apply Hframe.
  intros Hp. apply elem_of_cons in Hp as [Hp|Hp];
    [|apply elem_of_cons in Hp as [Hp|Hp]; [|by inversion Hp]];
    by apply path_neq_suffixed in Hp.
Qed.


(** *** The posting run *)



(** C9.  Whenever [get_next_image] returns a path, [is_image_posted]
    is false for it in the world the selection leaves (the log is
    untouched); so no run of [post_to_bluesky] takes the branch of its
    second guard, the one that prints "has already been posted". *)
Theorem second_guard_unreachable (w : World) :
  (∀ directory p,
     out (get_next_image directory w) = Returned (Some p) →
     out (is_image_posted p (world (get_next_image directory w)))
     = Returned false)
  ∧ (∀ p, Printed (AlreadyPosted p) ∉ emitted (post_to_bluesky U P w)).
Proof.
  split.
  - intros directory p.
    destruct (get_next_image_run directory w) as (x' & ds & Hperm & ->).
    cbn [out world]. intros [= Hfind].
    apply find_unposted_Some in Hfind as [_ Hnot].
    rewrite is_image_posted_run. cbn [out]. f_equal.
    by apply bool_decide_eq_false.
  - intros p Hin. pose proof (post_to_bluesky_run w) as Hrun.
    remember (emitted (post_to_bluesky U P w)) as evs eqn:Hevs.
    clear Hevs. destruct Hrun; try selection_prints; in_list Hin.
Qed.

(** C6.  Every record a run submits has the empty text and exactly one
    facet; the facet's byte range is [0,0], its one feature is the tag
    feature, and the text it annotates is the empty string. *)
Theorem post_record_has_vacuous_facet (w : World) (d : CreateRecordData) :
  CreatedRecord d ∈ emitted (post_to_bluesky U P w) →
  text (record d) = []
  ∧ ∃ f, facets (record d) = [f]
       ∧ index f = {| byteStart := 0; byteEnd := 0 |}
       ∧ features f = [FacetTag hashtag]
       ∧ annotated_text (record d) f = [].
Proof.
  intros Hin. pose proof (post_to_bluesky_run w) as Hrun.
  remember (emitted (post_to_bluesky U P w)) as evs eqn:Hevs.
  clear Hevs.
  assert (∃ did b, d = record_for did b) as (did & b & ->).
  { destruct Hrun; try selection_prints; in_list Hin;
      injection Hin as ->; by eexists _, _. }
  split; [done|]. by eexists.
Qed.

(** The start of a run whose login succeeds and whose selection returns
    [q]: up to the reading of [q], nothing is printed but the login is
    made, and only the random draws are consumed. *)
Ltac run_to_selected Hlogin Hrun Hq Hnot :=
  unfold post_to_bluesky, client_login, client_upload_blob,
    client_create_record, log_posted_image; munfold;
  rewrite Hlogin; mred; rewrite Hrun; mred;
  rewrite (bool_decide_false _ Hq); mred;
  rewrite is_image_posted_run, (bool_decide_false _ Hnot); mred.

(** C5 (as amended).  A stored file within the ceiling, a file of zero
    bytes included, is returned unchanged and never decoded.  For a stored
    file above the ceiling that Pillow cannot open, or cannot decode when
    converting, [compress_image] fails with the exception Pillow raised,
    after the "Compressing" line and with no file written.  In a run of
    [post_to_bluesky], when the reading, the upload or the submission of
    the selected image fails, the run ends there: the error line is its
    last event, no other image is read or sent, and nothing is logged. *)
Theorem compress_image_decode_error (p : str) (w : World) (c : list N) :
  files w !! p = Some c →
  ((Z.of_nat (length c) ≤ 976560)%Z →
     compress_image p w = Build_Result (Returned p) w [])
  ∧ ((976560 < Z.of_nat (length c))%Z →
     ∀ e, (Image_open c = Raised e
           ∨ ∃ im, Image_open c = Returned im ∧ convert_RGB im = Raised e) →
          compress_image p w =
          Build_Result (Raised e) w [Printed (Compressing p)])
  ∧ (∀ did q,
       login U P = Returned did →
       out (get_next_image (lit "images/") w) = Returned (Some q) →
       q ≠ [] →
       let w1 := world (get_next_image (lit "images/") w) in
       (files w !! q = None →
          post_to_bluesky U P w =
          Build_Result (Returned ()) w1
            [LoggedIn U P; Printed (ErrorWhilePosting FileNotFoundError)])
       ∧ (∀ c' e,
            files w !! q = Some c' → upload_blob c' = Raised e →
            post_to_bluesky U P w =
            Build_Result (Returned ()) w1
              [LoggedIn U P; UploadedBlob c'; Printed (ErrorWhilePosting e)])
       ∧ (∀ c' b e,
            files w !! q = Some c' → upload_blob c' = Returned b →
            create_record (record_for did b) = Raised e →
            post_to_bluesky U P w =
            Build_Result (Returned ()) w1
              [LoggedIn U P; UploadedBlob c';
               CreatedRecord (record_for did b);
               Printed (ErrorWhilePosting e)])).
Proof.
  intros Hc. split; [by apply compress_image_unchanged|]. split.
  { intros Hsize e [Hopen|(im & Hopen & Hconv)].
    - by apply compress_image_undecodable with c.
    - by apply compress_image_unconvertible with c im. }
  intros did q Hlogin Hsel Hq w1. subst w1.
  destruct (get_next_image_run (lit "images/") w) as (x' & ds & _ & Hrun).
  rewrite Hrun in Hsel |- *. cbn [out world] in *. injection Hsel as Hfind.
  cbn [out world].
  destruct (find_unposted_Some _ _ _ Hfind) as [Hin Hnot].
  destruct x' as [|image rest]; [by apply elem_of_nil in Hin|].
  rewrite Hfind in Hrun. split; [|split].
  - intros Hfile. run_to_selected Hlogin Hrun Hq Hnot.
    by rewrite Hfile.
  - intros c' e Hfile Hup. run_to_selected Hlogin Hrun Hq Hnot.
    rewrite Hfile. mred. by rewrite Hup.
  - intros c' b e Hfile Hup Hcr. run_to_selected Hlogin Hrun Hq Hnot.
    rewrite Hfile. mred. rewrite Hup. mred.
    change ({| repo := did; collection := _; record := _ |})
      with (record_for did b).
    by rewrite Hcr.
Qed.

(** A run in a world whose only listed image is [p], unposted, when
    the service accepts everything and the log can be written. *)
Lemma post_to_bluesky_single
    (w : World) (p : str) (c : list N) (did : str) (b : Blob) :
  listing w (lit "images/*") = [p] →
  p ≠ [] →
  files w !! LOG_FILE = None →
  files w !! p = Some c →
  LOG_FILE ∉ readonly w →
  encodable p →
  login U P = Returned did →
  upload_blob c = Returned b →
  create_record (record_for did b) = Returned () →
  emitted (post_to_bluesky U P w)
  = [LoggedIn U P; UploadedBlob c; CreatedRecord (record_for did b);
     Printed (SuccessfullyPosted p); Printed (LoggedPostedImage p)]
  ∧ files (world (post_to_bluesky U P w)) = <[LOG_FILE := p ++ [LF]]> (files w).
Proof.
  intros Hlist Hp Hlog Hc Hro Henc Hlogin Hup Hcr.
  pose proof (post_to_bluesky_run w) as Hrun.
  remember (emitted (post_to_bluesky U P w)) as evs eqn:Hevs.
  remember (files (world (post_to_bluesky U P w))) as fs eqn:Hfs.
  clear Hevs Hfs.
  assert (stripped_lines w = []) as Hnone
    by (unfold stripped_lines; by rewrite Hlog).
  assert (∀ q, selectable w q → q = p) as Hsel.
  { intros q (Hq & _ & _). rewrite Hlist in Hq.
    by apply list_elem_of_singleton in Hq. }
  destruct Hrun as [e He|did' sel Hd Hno Hs|did' q Hd Hq Hcq
                   |did' q c' e Hd Hq Hcq Hu|did' q c' b' e Hd Hq Hcq Hu Hr
                   |did' q c' b' Hd Hq Hcq Hu Hr Hw He
                   |did' q c' b' Hd Hq Hcq Hu Hr Hw He
                   |did' q c' b' Hd Hq Hcq Hu Hr Hw];
    try (apply Hsel in Hq as ->); try congruence; try done.
  - exfalso. rewrite Hlist, Hnone in Hno. destruct Hno as [Hno|Hno].
    + specialize (Hno p (list_elem_of_here _ _)). in_list Hno.
    + in_list Hno. done.
  - assert (did' = did) as -> by congruence.
    assert (c' = c) as -> by congruence.
    assert (b' = b) as -> by congruence.
    by rewrite Hlog.
Qed.

(** Every run leaves the files as they were, or with one line more in
    the log, or with the log opened and nothing written to it: no derived
    file is made, none is deleted. *)
Lemma post_to_bluesky_only_touches_log (w : World) :
  let fs := files (world (post_to_bluesky U P w)) in
  fs = files w
  ∨ (∃ p, selectable w p
        ∧ fs = <[LOG_FILE := default [] (files w !! LOG_FILE) ++ p ++ [LF]]>
                 (files w))
  ∨ fs = <[LOG_FILE := default [] (files w !! LOG_FILE)]> (files w).
Proof.
  cbv zeta. pose proof (post_to_bluesky_run w) as Hrun.
  remember (emitted (post_to_bluesky U P w)) as evs eqn:Hevs.
  remember (files (world (post_to_bluesky U P w))) as fs eqn:Hfs.
  clear Hevs Hfs. destruct Hrun; eauto.
Qed.

(** [delete_image_copies] removes the two derived files, where they
    exist, and touches nothing else. *)
Lemma delete_image_copies_files (p : str) (w : World) :
  files (world (delete_image_copies p w))
  = delete (p ++ lit "_resized.jpg")
      (delete (p ++ lit "_compressed.jpg") (files w)).
Proof.
  unfold delete_image_copies, delete_each. repeat munfold.
  case_bool_decide as H1; mred.
  - destruct H1 as [c1 H1]. rewrite H1. mred.
    case_bool_decide as H2; mred.
    + destruct H2 as [c2 H2]. rewrite H2. by mred.
    + apply eq_None_not_Some in H2. by rewrite (delete_id _ _ H2).
  - apply eq_None_not_Some in H1. rewrite (delete_id _ _ H1).
    case_bool_decide as H2; mred.
    + destruct H2 as [c2 H2]. rewrite H2. by mred.
    + apply eq_None_not_Some in H2. by rewrite (delete_id _ _ H2).
Qed.

End BotFacts.

(** C1 (where the code departs from the claim).  The only image of
    [w_big] has 976,561 bytes and is unposted.  The run sends exactly
    these bytes, above the ceiling, and logs the path; it writes no other
    file and deletes none.  [compress_image], were it called on the
    image, would have returned the compressed copy. *)
Theorem post_to_bluesky_sends_unadapted_bytes :
  let r := post_to_bluesky (client := toy_client) None None w_big in
  emitted r
  = [LoggedIn None None; UploadedBlob oversized;
     CreatedRecord
       (record_for (client := toy_client) (lit "did:plc:laura")
          (toy_blob oversized));
     Printed (SuccessfullyPosted big); Printed (LoggedPostedImage big)]
  ∧ Z.of_nat (length oversized) = 976561%Z
  ∧ files (world r) = <[LOG_FILE := big ++ [LF]]> (files w_big)
  ∧ out (compress_image (pil := toy_pil) big w_big)
    = Returned (big ++ lit "_compressed.jpg").
Proof.
  cbv zeta.
  assert (Z.of_nat (length oversized) = 976561%Z) as Hlen.
  { unfold oversized. cbn [length]. rewrite length_replicate. lia. }
  assert (files w_big !! big = Some oversized) as Hbig
    by apply lookup_singleton_eq.
  assert (big ≠ LOG_FILE) as Hne by (by vm_compute).
  destruct (post_to_bluesky_single (client := toy_client) None None
              w_big big oversized (lit "did:plc:laura") (toy_blob oversized))
    as [Hev Hfs].
  - reflexivity.
  - by vm_compute.
  - by apply lookup_singleton_ne.
  - exact Hbig.
  - apply not_elem_of_empty.
  - apply (bool_decide_unpack _). by vm_compute.
  - reflexivity.
  - reflexivity.
  - reflexivity.
  - split; [exact Hev|]. split; [exact Hlen|]. split; [exact Hfs|].
    rewrite (compress_image_compressed (pil := toy_pil) big w_big oversized
               (500, 500)%Z (500, 500)%Z).
    + reflexivity.
    + exact Hbig.
    + lia.
    + reflexivity.
    + reflexivity.
    + apply not_elem_of_empty.
    + unfold toy_pil, encode_JPEG. cbn [fst snd].
      rewrite length_replicate, Z2Nat.id; by vm_compute.
Qed.


(** ** The claims on concrete inputs *)


(** C3 at the ceiling itself: a file of exactly 976,560 bytes. *)
Lemma compress_image_at_ceiling :
  Z.of_nat (length at_ceiling) = 976560%Z
  ∧ compress_image (pil := toy_pil) big w_ceiling
    = Build_Result (Returned big) w_ceiling []
  ∧ files (world (compress_image (pil := toy_pil) big w_ceiling))
      !! (big ++ lit "_compressed.jpg")
    = files w_ceiling !! (big ++ lit "_compressed.jpg").
Proof.
  assert (Z.of_nat (length at_ceiling) = 976560%Z) as Hlen.
  { unfold at_ceiling. rewrite length_replicate. lia. }
  split; [exact Hlen|].
  apply (compress_image_within_ceiling (pil := toy_pil) big w_ceiling at_ceiling).
  - apply lookup_singleton_eq.
  - lia.
Defined.

(** C4 on a 2000 x 1000 image whose compressed copy has 1,000,000
    bytes: the ratio is 976560 / 1000000 * 0.9, and the resized image is
    1757 x 878. *)
Lemma compress_image_resizes_huge :
  out (compress_image (pil := toy_pil) big w_huge)
  = Returned (big ++ lit "_resized.jpg")
  ∧ files (world (compress_image (pil := toy_pil) big w_huge))
      !! (big ++ lit "_resized.jpg")
    = Some (encode_JPEG (PIL := toy_pil) (1757, 878)%Z 85 true)
  ∧ emitted (compress_image (pil := toy_pil) big w_huge)
    = [Printed (Compressing big); Printed (Resizing big)].
Proof.
  apply (compress_image_resizes_once (pil := toy_pil) big w_huge huge
           (2000, 1000)%Z (2000, 1000)%Z 1000000 1757 878 (1757, 878)%Z).
  - apply lookup_singleton_eq.
  - unfold huge. cbn [length]. rewrite length_replicate. lia.
  - reflexivity.
  - reflexivity.
  - apply not_elem_of_empty.
  - apply not_elem_of_empty.
  - unfold toy_pil, encode_JPEG. cbn [fst snd].
    rewrite length_replicate, Z2Nat.id; by vm_compute.
  - lia.
  - by vm_compute.
  - by vm_compute.
  - by vm_compute.
Defined.

(** A file of zero bytes, which no codec decodes, is returned as it is. *)
Lemma compress_image_returns_empty_file :
  files w_zero !! big = Some []
  ∧ Image_open (PIL := toy_pil) [] = Raised UnidentifiedImageError
  ∧ compress_image (pil := toy_pil) big w_zero
    = Build_Result (Returned big) w_zero [].
Proof. by vm_compute. Qed.

(** C5 on 976,561 undecodable bytes. *)
Lemma compress_image_rejects_garbage :
  compress_image (pil := toy_pil) big w_garbage
  = Build_Result (Raised UnidentifiedImageError) w_garbage
      [Printed (Compressing big)].
Proof.
  destruct (compress_image_decode_error (pil := toy_pil) (client := toy_client)
              None None big w_garbage garbage) as (_ & Hfail & _).
  - apply lookup_singleton_eq.
  - apply Hfail; [|by left].
    unfold garbage. cbn [length]. rewrite length_replicate. lia.
Defined.

(** When the service refuses the upload, the run reports the error and
    ends: the second image is not tried and no file changes. *)
Lemma refused_upload_ends_the_run :
  let r := post_to_bluesky (client := failing_client) None None w_two in
  emitted r
  = [LoggedIn None None; UploadedBlob [4];
     Printed (ErrorWhilePosting BadRequestError)]
  ∧ files (world r) = files w_two.
Proof. by vm_compute. Qed.

(** C6 on the record posted for [b_png]. *)
Lemma post_record_of_w_two :
  let d := record_for (client := toy_client) (lit "did:plc:laura")
             (toy_blob [4]) in
  text (record d) = []
  ∧ ∃ f, facets (record d) = [f]
       ∧ index f = {| byteStart := 0; byteEnd := 0 |}
       ∧ features f = [FacetTag hashtag]
       ∧ annotated_text (record d) f = [].
Proof.
  apply (post_record_has_vacuous_facet (client := toy_client) None None w_two).
  vm_compute. do 2 apply list_elem_of_further. apply list_elem_of_here.
Defined.

(** * Further facts *)

(** ** The post log *)

Lemma terminated_append (c s : str) : terminated (c ++ s ++ [LF]).
Proof.
  right. rewrite app_assoc. apply last_snoc.
Qed.

(** The lines of a text that follows a terminated one are read after
    the lines of that one. *)
Lemma readlines_after_terminated (c s : str) :
  terminated c →
  readlines (universal_newlines (c ++ s))
  = readlines (universal_newlines c) ++ readlines (universal_newlines s).
Proof.
  intros [->|Hlast]; [done|].
  rewrite universal_newlines_app by (by rewrite Hlast).
  apply last_Some in Hlast as [a ->].
  destruct (universal_newlines_ends_LF a) as [u ->].
  apply readlines_app.
Qed.

(** X1.  [log_posted_image] never raises and changes no file but the
    log; when the log cannot be written it changes nothing at all and
    prints the error. *)
Theorem log_posted_image_absorbs_failure (p : str) (w : World) :
  out (log_posted_image p w) = Returned ()
  ∧ (∀ q, q ≠ LOG_FILE →
       files (world (log_posted_image p w)) !! q = files w !! q)
  ∧ (LOG_FILE ∈ readonly w →
       world (log_posted_image p w) = w
       ∧ emitted (log_posted_image p w)
         = [Printed (ErrorLogging PermissionError)]).
Proof.
  destruct (decide (LOG_FILE ∈ readonly w)) as [Hro|Hro].
  - rewrite (log_posted_image_denied p w Hro). by cbn.
  - destruct (decide (encodable p)) as [Hp|Hp];
      [rewrite (log_posted_image_run p w Hro Hp)
      |rewrite (log_posted_image_not_encoded p w Hro Hp)];
      cbn [out world emitted files set_files];
      (split; [done|]); (split; [|done]);
      intros q Hq; by rewrite lookup_insert_ne.
Qed.

(** X2.  On a writable log, [log_posted_image p], for a path [p] that
    can be encoded, appends exactly [p] and a newline to what the log held
    (nothing when it was missing), so the log it leaves ends in a
    newline. *)
Theorem log_posted_image_appends_line (p : str) (w : World) :
  LOG_FILE ∉ readonly w →
  encodable p →
  let log' := default [] (files w !! LOG_FILE) ++ p ++ [LF] in
  files (world (log_posted_image p w)) !! LOG_FILE = Some log'
  ∧ terminated log'
  ∧ readonly (world (log_posted_image p w)) = readonly w.
Proof.
  intros Hro Hp log'. rewrite (log_posted_image_run p w Hro Hp).
  cbn [world files set_files readonly]. rewrite lookup_insert_eq.
  split; [done|]. split; [apply terminated_append|done].
Qed.

Lemma log_posted_image_appends_line_example :
  files (world (log_posted_image b_png w_a_posted)) !! LOG_FILE
  = Some ((a_png ++ [LF]) ++ b_png ++ [LF]).
Proof.
  destruct (log_posted_image_appends_line b_png w_a_posted) as [H _].
  - apply not_elem_of_empty.
  - apply (bool_decide_unpack _). by vm_compute.
  - rewrite H. by vm_compute.
Defined.

(** X20.  When the log can be opened for writing and the path cannot
    be encoded, [log_posted_image] still returns: it reports the encoding
    error and writes nothing, but the log has been opened, so that a log
    that was missing now exists, empty; no other file changes. *)
Theorem log_posted_image_unencodable (p : str) (w : World) :
  LOG_FILE ∉ readonly w →
  ¬ encodable p →
  let r := log_posted_image p w in
  out r = Returned ()
  ∧ emitted r = [Printed (ErrorLogging UnicodeEncodeError)]
  ∧ files (world r) !! LOG_FILE = Some (default [] (files w !! LOG_FILE))
  ∧ (∀ q, q ≠ LOG_FILE → files (world r) !! q = files w !! q)
  ∧ out (is_image_posted p (world r)) = out (is_image_posted p w).
Proof.
  intros Hro Hp r. subst r.
  rewrite (log_posted_image_not_encoded p w Hro Hp).
  cbn [out world emitted files set_files]. rewrite lookup_insert_eq.
  do 3 (split; [done|]). split.
  - intros q Hq. by rewrite lookup_insert_ne.
  - rewrite !is_image_posted_run. unfold stripped_lines.
    cbn [out files set_files]. rewrite lookup_insert_eq.
    by destruct (files w !! LOG_FILE).
Qed.

(** X20 on [undecoded], with no log yet: the log is created empty, and
    the image is still not posted. *)
Lemma log_posted_image_unencodable_example :
  let r := log_posted_image undecoded w_undecoded in
  files w_undecoded !! LOG_FILE = None
  ∧ files (world r) !! LOG_FILE = Some []
  ∧ emitted r = [Printed (ErrorLogging UnicodeEncodeError)]
  ∧ out (is_image_posted undecoded (world r)) = Returned false.
Proof.
  destruct (log_posted_image_unencodable undecoded w_undecoded)
    as (_ & Hev & Hlog & _ & Hposted).
  - apply not_elem_of_empty.
  - apply (bool_decide_unpack _). by vm_compute.
  - cbv zeta. rewrite Hlog, Hev, Hposted. by vm_compute.
Defined.

(** X3.  On a writable log that is missing, empty or ends in a newline,
    logging one more image keeps every image posted that was posted
    before. *)
Theorem log_posted_image_keeps_posted (p q : str) (w : World) :
  LOG_FILE ∉ readonly w →
  (∀ log, files w !! LOG_FILE = Some log → terminated log) →
  out (is_image_posted q w) = Returned true →
  out ((log_posted_image p;; is_image_posted q) w) = Returned true.
Proof.
  intros Hro Hlog Hq.
  rewrite is_image_posted_run in Hq. cbn [out] in Hq.
  injection Hq as Hq. apply bool_decide_eq_true in Hq.
  destruct (decide (encodable p)) as [Hp|Hp];
    [rewrite (bind_returned _ _ _ _ _ _ (log_posted_image_run p w Hro Hp))
    |rewrite (bind_returned _ _ _ _ _ _
                (log_posted_image_not_encoded p w Hro Hp))];
    rewrite is_image_posted_run; cbn [out]; f_equal;
    apply bool_decide_eq_true; unfold stripped_lines in *;
    cbn [files set_files]; rewrite lookup_insert_eq;
    (destruct (files w !! LOG_FILE) as [log|] eqn:Hl;
       [|by apply elem_of_nil in Hq]);
    cbn [default from_option id]; [|done].
  rewrite readlines_after_terminated by (by apply Hlog).
  rewrite fmap_app. apply elem_of_app. by left.
Qed.

Lemma log_posted_image_keeps_posted_example :
  out ((log_posted_image b_png;; is_image_posted a_png) w_a_posted)
  = Returned true.
Proof.
  apply log_posted_image_keeps_posted.
  - apply not_elem_of_empty.
  - intros log Hlog. vm_compute in Hlog. injection Hlog as <-. by right.
  - by vm_compute.
Defined.

(** Without the final newline the guarantee is lost: the new path is
    glued to the last line. *)
Lemma unterminated_log_loses_entry :
  let w := world_of {[ LOG_FILE := a_png ]} [] in
  out (is_image_posted a_png w) = Returned true
  ∧ out ((log_posted_image b_png;; is_image_posted a_png) w) = Returned false.
Proof. by vm_compute. Qed.

(** ** Selection *)

(** X4.  [get_next_image] reads only: files, permissions and the
    directory listing are as before.  It prints "No images found" exactly
    when the listing is empty, "All images ... already been posted" exactly
    when the listing is not empty and every entry of it is found in the
    log, and nothing when it returns an image. *)
Theorem get_next_image_reads_only (directory : str) (w : World) :
  let r := get_next_image directory w in
  let D := listing w (directory ++ lit "*") in
  files (world r) = files w
  ∧ readonly (world r) = readonly w
  ∧ listing (world r) = listing w
  ∧ (Printed NoImagesFound ∈ emitted r ↔ D = [])
  ∧ (Printed AllAlreadyPosted ∈ emitted r
     ↔ D ≠ [] ∧ ∀ p, p ∈ D → p ∈ stripped_lines w)
  ∧ (∀ p, out r = Returned (Some p) → emitted r = []).
Proof.
  cbv zeta.
  destruct (get_next_image_run directory w) as (x' & ds & Hperm & ->).
  cbn [out world emitted files readonly listing set_entropy].
  do 3 (split; [done|]).
  assert (x' = [] ↔ listing w (directory ++ lit "*") = []) as Hnil.
  { split; intros H; [rewrite H in Hperm; by apply Permutation_nil_l in Hperm|].
    rewrite H in Hperm. by apply Permutation_nil_r in Hperm. }
  assert (find (unposted w) x' = None
          ↔ ∀ p, p ∈ listing w (directory ++ lit "*") → p ∈ stripped_lines w)
    as Hnone.
  { rewrite find_unposted_None. split; intros H p Hp; apply H.
    - by rewrite Hperm.
    - by rewrite <- Hperm. }
  destruct x' as [|image rest].
  - split; [|split].
    + split; intros _; [by apply Hnil|apply list_elem_of_here].
    + split; [intros H; in_list H|]. intros [H _]. exfalso. by apply H, Hnil.
    + by intros p [=].
  - assert (listing w (directory ++ lit "*") ≠ []) as Hne
      by (intros H; by apply Hnil in H).
    destruct (find (unposted w) (image :: rest)) as [p|] eqn:Hfind.
    + split; [|split].
      * split; [intros H; in_list H|done].
      * split; [intros H; in_list H|]. intros [_ H]. by apply Hnone in H.
      * done.
    + split; [|split].
      * split; [intros H; in_list H|done].
      * split; intros _; [|apply list_elem_of_here].
        split; [done|]. by apply Hnone.
      * by intros p [=].
Qed.

(** X5.  When exactly one entry of the listing is not found in the log,
    [get_next_image] returns it, whatever the shuffle does. *)
Theorem get_next_image_only_candidate (directory p : str) (w : World) :
  let D := listing w (directory ++ lit "*") in
  p ∈ D →
  p ∉ stripped_lines w →
  (∀ q, q ∈ D → q ≠ p → q ∈ stripped_lines w) →
  out (get_next_image directory w) = Returned (Some p).
Proof.
  intros D Hp Hnot Hothers.
  destruct (get_next_image_run directory w) as (x' & ds & Hperm & ->).
  fold D in Hperm. cbn [out]. f_equal.
  destruct (find (unposted w) x') as [q|] eqn:Hfind.
  - apply find_unposted_Some in Hfind as [Hq Hqnot]. rewrite Hperm in Hq.
    f_equal. destruct (decide (q = p)) as [->|Hne]; [done|].
    by apply Hothers in Hq.
  - exfalso. apply Hnot. apply (proj1 (find_unposted_None _ _) Hfind).
    by rewrite Hperm.
Qed.

(** Two images, the first of them logged: the second is returned, here
    with a tape of draws that leaves the listing in its order. *)
Lemma get_next_image_only_candidate_example :
  out (get_next_image (lit "images/") (set_entropy [1%nat] w_a_posted))
  = Returned (Some b_png).
Proof.
  apply get_next_image_only_candidate.
  - apply list_elem_of_further, list_elem_of_here.
  - apply (bool_decide_unpack _). by vm_compute.
  - intros q Hq Hne. change (q ∈ [a_png; b_png]) in Hq. in_list Hq; subst.
    + apply (bool_decide_unpack _). by vm_compute.
    + done.
Defined.

(** ** The size adapter *)

Section AdapterFacts.

Context {pil : PIL}.

(** Every run of [compress_image] is one of the nine of [AdaptRun]. *)
Lemma compress_image_run (p : str) (w : World) :
  AdaptRun p w (compress_image p w).
Proof.
  unfold compress_image. repeat munfold.
  destruct (files w !! p) as [c|] eqn:Hc; mred; [|by apply SourceMissing].
  destruct (Z.leb_spec (Z.of_nat (length c)) 976560) as [Hsize|Hsize]; mred;
    [by eapply WithinCeiling|].
  rewrite Hc; mred.
  destruct (Image_open c) as [im|e] eqn:Hopen; mred; [|by eapply Undecodable].
  destruct (convert_RGB im) as [rgb|e] eqn:Hconv; mred;
    [|by eapply Unconvertible].
  destruct (decide (p ++ lit "_compressed.jpg" ∈ readonly w)) as [Hro|Hro];
    mred; [by eapply CompressedDenied|].
  rewrite lookup_insert_eq. mred.
  destruct (Z.leb_spec (Z.of_nat (length (encode_JPEG rgb 85 true)))
              976560) as [Hcsize|Hcsize]; mred;
    [by eapply CompressedFits|].
  pose proof (ResizeFailed p w c im rgb) as Hfail.
  pose proof (ResizedDenied p w c im rgb) as Hdenied.
  pose proof (Resized p w c im rgb) as Hok.
  cbv zeta in Hfail, Hdenied, Hok. unfold resized_image in *.
  destruct (int_of_float _) as [new_width|e]; mred; [|by eapply Hfail].
  destruct (int_of_float _) as [new_height|e]; mred; [|by eapply Hfail].
  destruct (resize _ _) as [resized|e]; mred; [|by eapply Hfail].
  destruct (decide (p ++ lit "_resized.jpg" ∈ readonly w)) as [Hro2|Hro2]; mred.
  - by eapply Hdenied.
  - by eapply Hok.
Qed.

Lemma derived_paths_differ (p : str) :
  p ++ lit "_compressed.jpg" ≠ p ++ lit "_resized.jpg".
Proof. intros H. apply app_inv_head in H. by vm_compute in H. Qed.

(** X6.  Whenever [compress_image] returns a path, it is the path it
    was given or one of the two derived paths, and a file exists there;
    unless it is the resized copy, that file is within the ceiling. *)
Theorem compress_image_returns_existing_file (p q : str) (w : World) :
  out (compress_image p w) = Returned q →
  q ∈ [p; p ++ lit "_compressed.jpg"; p ++ lit "_resized.jpg"]
  ∧ ∃ c, files (world (compress_image p w)) !! q = Some c
       ∧ (q ≠ p ++ lit "_resized.jpg" → (Z.of_nat (length c) ≤ 976560)%Z).
Proof.
  intros Hout. destruct (compress_image_run p w); cbn [out] in Hout;
    try discriminate Hout; injection Hout as <-;
    cbn [world files set_files].
  - split; [apply list_elem_of_here|]. by exists c.
  - split; [apply list_elem_of_further, list_elem_of_here|].
    exists compressed. by rewrite lookup_insert_eq.
  - split; [do 2 apply list_elem_of_further; apply list_elem_of_here|].
    eexists. by rewrite lookup_insert_eq.
Qed.

(** X7.  When [compress_image] raises, the only file it can have
    written is the compressed copy: the resized copy and every other file
    are as before. *)
Theorem compress_image_failure_leaves_at_most_compressed
    (p : str) (w : World) (e : exn) :
  out (compress_image p w) = Raised e →
  ∀ q, q ≠ p ++ lit "_compressed.jpg" →
       files (world (compress_image p w)) !! q = files w !! q.
Proof.
  intros Hout q Hq. destruct (compress_image_run p w); cbn [out] in Hout;
    try discriminate Hout; cbn [world files set_files]; try done;
    by rewrite lookup_insert_ne.
Qed.

(** X8.  Run after [compress_image], whatever its outcome,
    [delete_image_copies] leaves the files as they were before the two,
    provided neither derived file existed then. *)
Theorem delete_image_copies_undoes_compress_image (p : str) (w : World) :
  files w !! (p ++ lit "_compressed.jpg") = None →
  files w !! (p ++ lit "_resized.jpg") = None →
  files (world (delete_image_copies p (world (compress_image p w))))
  = files w.
Proof.
  intros Hc Hr. rewrite delete_image_copies_files.
  pose proof (derived_paths_differ p) as Hne.
  apply map_eq. intros k.
  destruct (compress_image_files p w) as [->|[[c1 ->]|(c1 & c2 & ->)]];
    destruct (decide (k = p ++ lit "_resized.jpg")) as [Hk1|Hk1];
    destruct (decide (k = p ++ lit "_compressed.jpg")) as [Hk2|Hk2];
    try congruence; subst;
    rewrite ?lookup_delete_eq, ?lookup_delete_ne, ?lookup_delete_eq,
      ?lookup_insert_ne, ?lookup_delete_ne by done; done.
Qed.

End AdapterFacts.

(** X7 on the undecodable bytes of [w_garbage]: the image itself is
    as before. *)
Lemma compress_image_failure_example :
  files (world (compress_image (pil := toy_pil) big w_garbage)) !! big
  = files w_garbage !! big.
Proof.
  apply (compress_image_failure_leaves_at_most_compressed (pil := toy_pil)
           big w_garbage UnidentifiedImageError).
  - rewrite (compress_image_undecodable (pil := toy_pil) big w_garbage garbage
               UnidentifiedImageError).
    + reflexivity.
    + apply lookup_singleton_eq.
    + unfold garbage. cbn [length]. rewrite length_replicate. lia.
    + reflexivity.
  - by apply path_neq_suffixed.
Defined.

(** X6 on the 976,561 bytes of [w_big], which compress to 125,000. *)
Lemma compress_image_returns_existing_file_example :
  big ++ lit "_compressed.jpg"
    ∈ [big; big ++ lit "_compressed.jpg"; big ++ lit "_resized.jpg"]
  ∧ ∃ c, files (world (compress_image (pil := toy_pil) big w_big))
           !! (big ++ lit "_compressed.jpg") = Some c
       ∧ (big ++ lit "_compressed.jpg" ≠ big ++ lit "_resized.jpg" →
          (Z.of_nat (length c) ≤ 976560)%Z).
Proof.
  apply (compress_image_returns_existing_file (pil := toy_pil)).
  rewrite (compress_image_compressed (pil := toy_pil) big w_big oversized
             (500, 500)%Z (500, 500)%Z).
  - reflexivity.
  - apply lookup_singleton_eq.
  - unfold oversized. cbn [length]. rewrite length_replicate. lia.
  - reflexivity.
  - reflexivity.
  - apply not_elem_of_empty.
  - unfold toy_pil, encode_JPEG. cbn [fst snd].
    rewrite length_replicate, Z2Nat.id; by vm_compute.
Defined.

(** X8 on the image of [w_huge], which is compressed and resized. *)
Lemma delete_image_copies_undoes_compress_image_example :
  files (world (delete_image_copies big
                  (world (compress_image (pil := toy_pil) big w_huge))))
  = files w_huge.
Proof.
  apply (delete_image_copies_undoes_compress_image (pil := toy_pil)).
  - apply lookup_singleton_ne. by vm_compute.
  - apply lookup_singleton_ne. by vm_compute.
Defined.

(** X9.  The single resize pass guarantees no size: there are a codec
    and an image for which [compress_image] returns the resized copy and
    that copy exceeds the ceiling. *)
Theorem compress_image_may_return_oversized :
  ∃ (pil : PIL) (p : str) (w : World) (c : list N),
    out (compress_image p w) = Returned (p ++ lit "_resized.jpg")
    ∧ files (world (compress_image p w)) !! (p ++ lit "_resized.jpg") = Some c
    ∧ (976560 < Z.of_nat (length c))%Z.
Proof.
  exists stubborn_pil, big, w_huge, (replicate (N.to_nat 2000000) 0).
  rewrite (compress_image_resized (pil := stubborn_pil) big w_huge huge
             (2000, 1000)%Z (2000, 1000)%Z 2000000 878 439 (878, 439)%Z).
  - cbn [out world files set_files]. rewrite lookup_insert_eq.
    split; [done|]. split; [done|]. rewrite length_replicate. lia.
  - apply lookup_singleton_eq.
  - unfold huge. cbn [length]. rewrite length_replicate. lia.
  - reflexivity.
  - reflexivity.
  - apply not_elem_of_empty.
  - apply not_elem_of_empty.
  - unfold stubborn_pil, encode_JPEG. rewrite length_replicate. lia.
  - lia.
  - by vm_compute.
  - by vm_compute.
  - by vm_compute.
Qed.

(** ** Cleaning up *)

(** The run of [delete_image_copies], by which of the two copies exist. *)
Lemma delete_image_copies_run (p : str) (w : World) :
  let comp := p ++ lit "_compressed.jpg" in
  let res := p ++ lit "_resized.jpg" in
  delete_image_copies p w
  = Build_Result (Returned ())
      (set_files (delete res (delete comp (files w))) w)
      ((if bool_decide (is_Some (files w !! comp))
        then [Printed (Deleted comp)] else [])
       ++ (if bool_decide (is_Some (files w !! res))
           then [Printed (Deleted res)] else [])).
Proof.
  intros comp res. pose proof (derived_paths_differ p) as Hne.
  assert (∀ v : World, v = set_files (files v) v) as Heta by (by intros []).
  unfold delete_image_copies, delete_each. fold comp res. repeat munfold.
  case_bool_decide as H1; mred.
  - destruct H1 as [c1 H1]. rewrite H1. mred.
    rewrite lookup_delete_ne by done.
    case_bool_decide as H2; mred.
    + destruct H2 as [c2 H2]. rewrite lookup_delete_ne, H2 by done. by mred.
    + apply eq_None_not_Some in H2.
      by rewrite (delete_id (delete comp (files w)) res)
        by (by rewrite lookup_delete_ne).
  - apply eq_None_not_Some in H1. rewrite (delete_id _ _ H1).
    case_bool_decide as H2; mred.
    + destruct H2 as [c2 H2]. rewrite H2. by mred.
    + apply eq_None_not_Some in H2. rewrite (delete_id _ _ H2).
      f_equal. apply Heta.
Qed.

(** X10.  [delete_image_copies] never raises, also when neither copy
    exists.  After it neither derived file exists and every other file is
    as before; it prints one line for each copy that existed, and a second
    call finds nothing to do. *)
Theorem delete_image_copies_cleans (p : str) (w : World) :
  let comp := p ++ lit "_compressed.jpg" in
  let res := p ++ lit "_resized.jpg" in
  let r := delete_image_copies p w in
  out r = Returned ()
  ∧ files (world r) !! comp = None
  ∧ files (world r) !! res = None
  ∧ (∀ q, q ∉ [comp; res] → files (world r) !! q = files w !! q)
  ∧ (Printed (Deleted comp) ∈ emitted r ↔ is_Some (files w !! comp))
  ∧ (Printed (Deleted res) ∈ emitted r ↔ is_Some (files w !! res))
  ∧ delete_image_copies p (world r) = Build_Result (Returned ()) (world r) [].
Proof.
  intros comp res r. subst r. pose proof (derived_paths_differ p) as Hne.
  fold comp res in Hne.
  rewrite (delete_image_copies_run p w). fold comp res.
  cbn [out world emitted files set_files].
  assert (delete res (delete comp (files w)) !! comp = None) as Hc
    by (by rewrite lookup_delete_ne, lookup_delete_eq).
  assert (delete res (delete comp (files w)) !! res = None) as Hr
    by (by rewrite lookup_delete_eq).
  split; [done|]. split; [done|]. split; [done|]. split; [|split; [|split]].
  - intros q Hq. apply not_elem_of_cons in Hq as [Hq1 Hq2].
    apply not_elem_of_cons in Hq2 as [Hq2 _].
    by rewrite !lookup_delete_ne.
  - case_bool_decide as Hb1; case_bool_decide as Hb2; cbn [app];
      split; intros Hin; try done; in_list Hin;
      try (by apply list_elem_of_here); try (by injection Hin).
  - case_bool_decide as Hb1; case_bool_decide as Hb2; cbn [app];
      split; intros Hin; try done; in_list Hin;
      try (by apply list_elem_of_here);
      try (by apply list_elem_of_further, list_elem_of_here);
      try (injection Hin as Hin; by symmetry in Hin).
  - rewrite (delete_image_copies_run p _). fold comp res.
    cbn [files set_files]. rewrite Hc, Hr.
    rewrite !bool_decide_false by (by intros [? ?]).
    by rewrite (delete_id _ _ Hc), (delete_id _ _ Hr).
Qed.

(** ** The posting run, further *)

Section RunFacts.

Context {client : Atproto} (U P : option str).

(** A run returns normally, and leaves permissions and the directory
    listing as they were. *)
Lemma post_to_bluesky_frame (w : World) :
  out (post_to_bluesky U P w) = Returned ()
  ∧ readonly (world (post_to_bluesky U P w)) = readonly w
  ∧ listing (world (post_to_bluesky U P w)) = listing w.
Proof.
  destruct (get_next_image_run (lit "images/") w) as (x' & ds & Hperm & Hsel).
  unfold post_to_bluesky, client_login, client_upload_blob,
    client_create_record, log_posted_image. munfold.
  destruct (login U P) as [did|e]; mred; [|done].
  rewrite Hsel.
  destruct (find (unposted w) x') as [p|] eqn:Hfind; mred; [|done].
  apply find_unposted_Some in Hfind as [_ Hnot].
  destruct (bool_decide (p = [])); mred; [done|].
  rewrite is_image_posted_run.
  change (stripped_lines (set_entropy ds w)) with (stripped_lines w).
  rewrite bool_decide_false by done. mred.
  destruct (files w !! p) as [c|]; mred; [|done].
  destruct (upload_blob c) as [b|e]; mred; [|done].
  destruct (create_record _) as [[]|e]; mred; [|done].
  destruct (decide (LOG_FILE ∈ readonly w)); mred; [done|].
  by destruct (decide (encodable (p ++ [LF]))); mred.
Qed.

(** X11.  [post_to_bluesky] never raises, whatever the service and the
    file system do.  Its first action is the login, made once; it leaves
    permissions and the directory listing untouched. *)
Theorem post_to_bluesky_never_raises (w : World) :
  let r := post_to_bluesky U P w in
  out r = Returned ()
  ∧ (∃ evs, emitted r = LoggedIn U P :: evs
          ∧ ∀ u p, LoggedIn u p ∉ evs)
  ∧ readonly (world r) = readonly w
  ∧ listing (world r) = listing w.
Proof.
  cbv zeta. destruct (post_to_bluesky_frame w) as (Hout & Hro & Hls).
  split; [done|]. split; [|done].
  pose proof (post_to_bluesky_run U P w) as Hrun.
  remember (emitted (post_to_bluesky U P w)) as evs eqn:Hevs.
  clear Hevs. destruct Hrun; try selection_prints;
    eexists; (split; [reflexivity|]); intros u' p' Hin; cbn [app] in Hin;
    in_list Hin.
Qed.

(** X12.  When the login fails the run ends there: nothing is listed or
    shuffled, read, sent or written, and the world is as before. *)
Theorem post_to_bluesky_login_failure (w : World) (e : exn) :
  login U P = Raised e →
  post_to_bluesky U P w
  = Build_Result (Returned ()) w [LoggedIn U P; Printed (ErrorWhilePosting e)].
Proof.
  intros Hlogin. unfold post_to_bluesky, client_login. munfold.
  by rewrite Hlogin.
Qed.

(** X13.  What a run sends is what it selected: the bytes of an upload
    are the content of a listed file not found in the log, and a submitted
    record is the one for the logged-in account and for the blob the
    service returned for those bytes. *)
Theorem post_to_bluesky_sends_selected (w : World) :
  let r := post_to_bluesky U P w in
  (∀ c, UploadedBlob c ∈ emitted r →
        ∃ p, selectable w p ∧ files w !! p = Some c)
  ∧ (∀ d, CreatedRecord d ∈ emitted r →
          ∃ did c b, login U P = Returned did
                   ∧ UploadedBlob c ∈ emitted r
                   ∧ upload_blob c = Returned b
                   ∧ d = record_for did b).
Proof.
  cbv zeta. pose proof (post_to_bluesky_run U P w) as Hrun.
  remember (emitted (post_to_bluesky U P w)) as evs eqn:Hevs.
  clear Hevs. split.
  - intros c' Hin. destruct Hrun; try selection_prints; cbn [app] in Hin;
      in_list Hin; injection Hin as ->; eauto.
  - intros d Hin. destruct Hrun; try selection_prints; cbn [app] in Hin;
      in_list Hin; injection Hin as ->;
      eexists _, _, _; (split; [eassumption|]);
      (split; [apply list_elem_of_further, list_elem_of_here|]); eauto.
Qed.

(** X14.  An image is logged only once it is posted: the line that
    reports the logging of [p] is printed only after bytes of [p] were
    uploaded and the record for them was accepted, and then the log holds
    [p] as its new last line.  A run that prints no such line leaves every
    file as it was, with one exception: when it posted a path that the
    encoding of the log cannot write, the log has been opened, so that a
    missing log now exists, empty.  Where every listed path can be encoded
    there is no exception. *)
Theorem post_to_bluesky_logs_after_posting (w : World) :
  let r := post_to_bluesky U P w in
  (∀ p, Printed (LoggedPostedImage p) ∈ emitted r →
        ∃ did c b,
          selectable w p ∧ files w !! p = Some c
          ∧ login U P = Returned did
          ∧ upload_blob c = Returned b
          ∧ create_record (record_for did b) = Returned ()
          ∧ emitted r
            = [LoggedIn U P; UploadedBlob c; CreatedRecord (record_for did b);
               Printed (SuccessfullyPosted p); Printed (LoggedPostedImage p)]
          ∧ files (world r)
            = <[LOG_FILE := default [] (files w !! LOG_FILE) ++ p ++ [LF]]>
                (files w))
  ∧ ((∀ p, Printed (LoggedPostedImage p) ∉ emitted r) →
     files (world r) = files w
     ∨ ∃ p, selectable w p ∧ ¬ encodable p
          ∧ last (emitted r) = Some (Printed (ErrorLogging UnicodeEncodeError))
          ∧ files (world r)
            = <[LOG_FILE := default [] (files w !! LOG_FILE)]> (files w))
  ∧ ((∀ q, q ∈ listing w (lit "images/*") → encodable q) →
     (∀ p, Printed (LoggedPostedImage p) ∉ emitted r) →
     files (world r) = files w).
Proof.
  cbv zeta. pose proof (post_to_bluesky_run U P w) as Hrun.
  remember (emitted (post_to_bluesky U P w)) as evs eqn:Hevs.
  remember (files (world (post_to_bluesky U P w))) as fs eqn:Hfs.
  clear Hevs Hfs.
  assert ((∀ p, Printed (LoggedPostedImage p) ∉ evs) →
          fs = files w
          ∨ ∃ p, selectable w p ∧ ¬ encodable p
               ∧ last evs = Some (Printed (ErrorLogging UnicodeEncodeError))
               ∧ fs = <[LOG_FILE := default [] (files w !! LOG_FILE)]>
                        (files w)) as Hquiet.
  { intros Hnone. destruct Hrun; try (by left).
    - exfalso. apply (Hnone p).
      do 4 apply list_elem_of_further. apply list_elem_of_here.
    - right. by exists p. }
  split; [|split; [done|]].
  - intros p' Hin. destruct Hrun; try selection_prints; cbn [app] in Hin;
      in_list Hin. injection Hin as ->. by eexists _, _, _.
  - intros Hall Hnone.
    destruct (Hquiet Hnone) as [->|(p & (Hin & _) & Hp & _)]; [done|].
    by destruct Hp; apply Hall.
Qed.


(** A run keeps the log terminated, and keeps in it what it held. *)
Lemma post_to_bluesky_keeps_log (w : World) :
  log_terminated w →
  log_terminated (world (post_to_bluesky U P w))
  ∧ ∀ q, q ∈ stripped_lines w →
         q ∈ stripped_lines (world (post_to_bluesky U P w)).
Proof.
  intros Hlog. unfold log_terminated, stripped_lines in *.
  destruct (post_to_bluesky_only_touches_log U P w) as [->|[(p & _ & ->)| ->]];
    [done|..]; rewrite lookup_insert_eq.
  - split.
    + intros log [= <-]. apply terminated_append.
    + intros q Hq.
      destruct (files w !! LOG_FILE) as [log|] eqn:Hl;
        [|by apply elem_of_nil in Hq].
      cbn [default from_option id].
      rewrite readlines_after_terminated by (by apply Hlog).
      rewrite fmap_app. apply elem_of_app. by left.
  - destruct (files w !! LOG_FILE) as [log|] eqn:Hl;
      cbn [default from_option id].
    + split; [|done]. intros ? [= <-]. by apply Hlog.
    + split; [|done]. intros ? [= <-]. by left.
Qed.

Lemma runs_keep_log (n : nat) (w : World) :
  log_terminated w →
  log_terminated (runs U P n w)
  ∧ ∀ q, q ∈ stripped_lines w → q ∈ stripped_lines (runs U P n w).
Proof.
  revert w. induction n as [|n IH]; intros w Hlog; [done|].
  destruct (post_to_bluesky_keeps_log w Hlog) as [Hlog' Hkeep].
  destruct (IH _ Hlog') as [Hlog'' Hkeep'].
  cbn [runs]. split; [done|]. intros q Hq. by apply Hkeep', Hkeep.
Qed.

(** X16.  A log that is missing, empty or ends in a newline stays so
    through any number of runs, and every path found in it stays found. *)
Theorem runs_keep_log_terminated (n : nat) (w : World) (q : str) :
  log_terminated w →
  log_terminated (runs U P n w)
  ∧ (out (is_image_posted q w) = Returned true →
     out (is_image_posted q (runs U P n w)) = Returned true).
Proof.
  intros Hlog. destruct (runs_keep_log n w Hlog) as [Hlog' Hkeep].
  split; [done|]. rewrite !is_image_posted_run. cbn [out].
  intros [= Hq]. f_equal. apply bool_decide_eq_true in Hq.
  apply bool_decide_eq_true. by apply Hkeep.
Qed.

(** X17.  No second posting: once a run has logged [p], a path without
    whitespace at its ends or a line break inside, in a log that was
    missing, empty or ended in a newline, no later run posts [p] again,
    however many runs come in between. *)
Theorem post_to_bluesky_does_not_repost (w : World) (p : str) (n : nat) :
  let w' := runs U P n (world (post_to_bluesky U P w)) in
  Printed (LoggedPostedImage p) ∈ emitted (post_to_bluesky U P w) →
  log_terminated w →
  strip p = p → LF ∉ p → CR ∉ p →
  out (is_image_posted p w') = Returned true
  ∧ (Printed (SuccessfullyPosted p) ∉ emitted (post_to_bluesky U P w'))
  ∧ ∀ c, UploadedBlob c ∈ emitted (post_to_bluesky U P w') →
         ∃ p', p' ≠ p ∧ selectable w' p' ∧ files w' !! p' = Some c.
Proof.
  intros w' Hin Hlog Hstrip HLF HCR.
  assert (p ∈ stripped_lines w') as Hposted.
  { destruct (post_to_bluesky_keeps_log w Hlog) as [Hlog1 _].
    apply (runs_keep_log n _ Hlog1).
    pose proof (post_to_bluesky_run U P w) as Hrun.
    unfold stripped_lines.
    remember (emitted (post_to_bluesky U P w)) as evs eqn:Hevs.
    remember (files (world (post_to_bluesky U P w))) as fs eqn:Hfs.
    clear Hevs Hfs Hlog1. destruct Hrun; try selection_prints;
      cbn [app] in Hin; in_list Hin. injection Hin as ->.
    rewrite lookup_insert_eq. apply appended_line_is_read; [|done..].
    destruct (files w !! LOG_FILE) as [log|] eqn:Hl; [by apply Hlog|by left]. }
  clearbody w'. split; [|split].
  - rewrite is_image_posted_run. cbn [out]. f_equal.
    by apply bool_decide_eq_true.
  - intros Hin'. pose proof (post_to_bluesky_run U P w') as Hrun.
    remember (emitted (post_to_bluesky U P w')) as evs eqn:Hevs.
    clear Hevs.
    destruct Hrun as [| | | | |? ? ? ? ? Hsel|? ? ? ? ? Hsel|? ? ? ? ? Hsel];
      try selection_prints; cbn [app] in Hin'; in_list Hin';
      injection Hin' as ->; by destruct Hsel as (_ & Hnot & _).
  - intros c Hin'. pose proof (post_to_bluesky_run U P w') as Hrun.
    remember (emitted (post_to_bluesky U P w')) as evs eqn:Hevs.
    clear Hevs.
    destruct Hrun as [| | |? p' ? ? ? Hsel|? p' ? ? ? ? Hsel
                     |? p' ? ? ? Hsel|? p' ? ? ? Hsel|? p' ? ? ? Hsel];
      try selection_prints; cbn [app] in Hin'; in_list Hin';
      injection Hin' as ->; exists p'; (split; [|done]);
      intros ->; by destruct Hsel as (_ & Hnot & _).
Qed.

(** X18.  When the log cannot be written, a run that posts [p] still
    ends normally; it reports the failed logging as its last event,
    changes no file, and [p] stays a candidate for the next run. *)
Theorem post_to_bluesky_unlogged_post (w : World) (p : str) :
  let r := post_to_bluesky U P w in
  LOG_FILE ∈ readonly w →
  Printed (SuccessfullyPosted p) ∈ emitted r →
  out r = Returned ()
  ∧ last (emitted r) = Some (Printed (ErrorLogging PermissionError))
  ∧ files (world r) = files w
  ∧ selectable (world r) p.
Proof.
  intros r Hro Hin. subst r.
  destruct (post_to_bluesky_frame w) as (Hout & _ & Hls).
  split; [done|].
  pose proof (post_to_bluesky_run U P w) as Hrun.
  unfold selectable, stripped_lines. rewrite Hls.
  remember (emitted (post_to_bluesky U P w)) as evs eqn:Hevs.
  remember (files (world (post_to_bluesky U P w))) as fs eqn:Hfs.
  clear Hevs Hfs Hout.
  destruct Hrun as [| | | | |? ? ? ? ? Hsel|? ? ? ? ? Hsel|? ? ? ? ? Hsel];
    try selection_prints; cbn [app] in Hin; in_list Hin;
    injection Hin as ->; [done..|].
  split; [done|]. split; [done|]. exact Hsel.
Qed.

End RunFacts.

(** ** The further facts on concrete inputs *)

Lemma post_to_bluesky_login_failure_example :
  post_to_bluesky (client := locked_client) None None w_two
  = Build_Result (Returned ()) w_two
      [LoggedIn None None; Printed (ErrorWhilePosting UnauthorizedError)].
Proof.
  by apply (post_to_bluesky_login_failure (client := locked_client)).
Defined.


(** The exception of X14: the run posts [undecoded], cannot log it and
    prints no logging line, and the log, missing before, exists after,
    empty. *)
Lemma unencodable_post_creates_log :
  let r := post_to_bluesky (client := toy_client) None None w_undecoded in
  emitted r
  = [LoggedIn None None; UploadedBlob [1; 2; 3];
     CreatedRecord
       (record_for (client := toy_client) (lit "did:plc:laura")
          (toy_blob [1; 2; 3]));
     Printed (SuccessfullyPosted undecoded);
     Printed (ErrorLogging UnicodeEncodeError)]
  ∧ files w_undecoded !! LOG_FILE = None
  ∧ files (world r) !! LOG_FILE = Some [].
Proof. by vm_compute. Qed.

Lemma runs_keep_log_terminated_example :
  log_terminated (runs (client := toy_client) None None 3 w_a_posted)
  ∧ (out (is_image_posted a_png w_a_posted) = Returned true →
     out (is_image_posted a_png
            (runs (client := toy_client) None None 3 w_a_posted))
     = Returned true).
Proof.
  apply (runs_keep_log_terminated (client := toy_client) None None 3
           w_a_posted a_png).
  intros log Hlog. vm_compute in Hlog. injection Hlog as <-. by right.
Defined.

(** The first run on [w_two] posts [b_png]; two runs later it is still
    not posted again. *)
Lemma post_to_bluesky_does_not_repost_example :
  let w' := runs (client := toy_client) None None 2
              (world (post_to_bluesky (client := toy_client) None None w_two)) in
  out (is_image_posted b_png w') = Returned true
  ∧ (Printed (SuccessfullyPosted b_png)
       ∉ emitted (post_to_bluesky (client := toy_client) None None w'))
  ∧ ∀ c, UploadedBlob c
           ∈ emitted (post_to_bluesky (client := toy_client) None None w') →
         ∃ p', p' ≠ b_png ∧ selectable w' p' ∧ files w' !! p' = Some c.
Proof.
  apply (post_to_bluesky_does_not_repost (client := toy_client) None None
           w_two b_png 2).
  - vm_compute. do 4 apply list_elem_of_further. apply list_elem_of_here.
  - intros log Hlog. by vm_compute in Hlog.
  - by vm_compute.
  - apply (bool_decide_unpack _). by vm_compute.
  - apply (bool_decide_unpack _). by vm_compute.
Defined.

Lemma post_to_bluesky_unlogged_post_example :
  let r := post_to_bluesky (client := toy_client) None None w_locked_log in
  out r = Returned ()
  ∧ last (emitted r) = Some (Printed (ErrorLogging PermissionError))
  ∧ files (world r) = files w_locked_log
  ∧ selectable (world r) a_png.
Proof.
  apply (post_to_bluesky_unlogged_post (client := toy_client) None None
           w_locked_log a_png).
  - apply (bool_decide_unpack _). by vm_compute.
  - vm_compute. do 3 apply list_elem_of_further. apply list_elem_of_here.
Defined.
